(** * The releases content plugin (website/plugins/releases)

    A shallow embedding of [releaseUtils.js] (truncate,
    generateReleases, generateHighlights, linkify) and of [index.js]
    (loadContent with its prev/next pass, contentLoaded in its
    compiled and its TypeScript form, metadataPath), with the
    properties the specification states about them and further
    properties of the code.

    JavaScript strings are sequences of UTF-16 code units; objects live
    in a store and arrays hold references to them; the host (file system,
    front-matter parser, url helpers, Node's [path]) is a record of
    functions the program is parameterised by. *)

From Stdlib Require Import NArith ZArith Ascii String Lia.
From stdpp Require Import base list option numbers.

Open Scope N_scope.
Open Scope nat_scope.

(** ** JavaScript strings *)

Module Js.

(** A UTF-16 code unit. *)
Definition char := N.
Abbreviation jsstring := (list char).

(** An ASCII literal as a JavaScript string. *)
Definition str (s : string) : jsstring :=
  List.map N_of_ascii (list_ascii_of_string s).

Definition chr (a : ascii) : char := N_of_ascii a.

Arguments str : simpl never.
Arguments chr : simpl never.

Definition ch_eqb (c d : char) : bool := N.eqb c d.

(** WhiteSpace and LineTerminator code units: what [String.prototype.trim]
    strips and what [\s] matches. *)
Definition isWhiteSpace (c : char) : bool :=
  (N.eqb c 9 || N.eqb c 10 || N.eqb c 11 || N.eqb c 12 || N.eqb c 13
   || N.eqb c 32 || N.eqb c 160 || N.eqb c 5760
   || (N.leb 8192 c && N.leb c 8202)
   || N.eqb c 8232 || N.eqb c 8233 || N.eqb c 8239 || N.eqb c 8287
   || N.eqb c 12288 || N.eqb c 65279)%bool.

Fixpoint trimStart (s : jsstring) : jsstring :=
  match s with
  | c :: s' => if isWhiteSpace c then trimStart s' else s
  | [] => []
  end.

Definition trimEnd (s : jsstring) : jsstring := rev (trimStart (rev s)).

(** [s.trim()] *)
Definition trim (s : jsstring) : jsstring := trimEnd (trimStart s).

(** [s.startsWith(p)] *)
Fixpoint startsWith (p s : jsstring) : bool :=
  match p, s with
  | [], _ => true
  | c :: p', d :: s' => ch_eqb c d && startsWith p' s'
  | _ :: _, [] => false
  end.

(** [s.endsWith(p)] *)
Definition endsWith (p s : jsstring) : bool := startsWith (rev p) (rev s).

(** [s.split(sep)] for a one-character separator: never empty, and the
    pieces contain no separator. *)
Fixpoint split (sep : char) (s : jsstring) : list jsstring :=
  match s with
  | [] => [[]]
  | c :: s' =>
      if ch_eqb c sep then [] :: split sep s'
      else match split sep s' with
           | l :: ls => (c :: l) :: ls
           | [] => [[c]]
           end
  end.

(** [lines.join(sep)] *)
Fixpoint join (sep : char) (ls : list jsstring) : jsstring :=
  match ls with
  | [] => []
  | [l] => l
  | l :: ls' => l ++ sep :: join sep ls'
  end.

(** [s.indexOf(pat)]: the first occurrence. *)
Fixpoint indexOf (pat s : jsstring) : option nat :=
  if startsWith pat s then Some 0
  else match s with
       | [] => None
       | _ :: s' => S <$> indexOf pat s'
       end.

(** GetSubstitution for a string pattern (no captures): [$$], [$&],
    [$`] and [$'] are expanded in the replacement, any other [$] is
    literal. *)
Fixpoint getSubstitution (matched before after replacement : jsstring)
  : jsstring :=
  match replacement with
  | [] => []
  | c :: r =>
      if ch_eqb c (chr "$") then
        match r with
        | [] => [c]
        | d :: r' =>
            if ch_eqb d (chr "$") then
              chr "$" :: getSubstitution matched before after r'
            else if ch_eqb d (chr "&") then
              matched ++ getSubstitution matched before after r'
            else if ch_eqb d (chr "`") then
              before ++ getSubstitution matched before after r'
            else if ch_eqb d (chr "'") then
              after ++ getSubstitution matched before after r'
            else c :: getSubstitution matched before after r
        end
      else c :: getSubstitution matched before after r
  end.

(** [s.replace(searchValue, replaceValue)] with a string pattern: only
    the first occurrence of [searchValue] in [s] is replaced. *)
Definition replace (s searchValue replaceValue : jsstring) : jsstring :=
  match indexOf searchValue s with
  | None => s
  | Some pos =>
      let before := take pos s in
      let after := drop (pos + length searchValue) s in
      before ++ getSubstitution searchValue before after replaceValue
             ++ after
  end.

(** Truthiness of a value that is a string or undefined. *)
Definition truthy (v : option jsstring) : bool :=
  match v with
  | Some (_ :: _) => true
  | _ => false
  end.

(** [a || b] on such values. *)
Definition or_else (a b : option jsstring) : option jsstring :=
  if truthy a then a else b.

(** [a || b] where [b] is a string. *)
Definition or_string (a : option jsstring) (b : jsstring) : jsstring :=
  match a with
  | Some (c :: s) => c :: s
  | _ => b
  end.

End Js.

Import Js.

(** ** Regular expression objects *)

Module RegExp.

(** A compiled pattern: the matcher tries the pattern at one start
    index and gives the end index and the captures; the flags decide
    how [lastIndex] is used. *)
Record t := mk {
  matcher : jsstring → nat → option (nat * list jsstring);
  global : bool;
  sticky : bool;
}.

Record MatchResult := mkMatch {
  index : nat;
  endIndex : nat;
  captures : list jsstring;
}.

(** The scan of RegExpBuiltinExec: [n] start positions remain. *)
Fixpoint scan (R : t) (S : jsstring) (lastIndex n : nat)
  : option MatchResult :=
  match n with
  | 0 => None
  | Datatypes.S n' =>
      match matcher R S lastIndex with
      | Some (e, caps) => Some (mkMatch lastIndex e caps)
      | None =>
          if sticky R then None
          else scan R S (Datatypes.S lastIndex) n'
      end
  end.

Definition usesLastIndex (R : t) : bool := global R || sticky R.

(** [R.exec(S)] with [R.lastIndex = lastIndex]: the match, if any, and
    the new [lastIndex]. *)
Definition exec (R : t) (lastIndex : nat) (S : jsstring)
  : option MatchResult * nat :=
  let start := if usesLastIndex R then lastIndex else 0 in
  match scan R S start (Datatypes.S (length S) - start) with
  | None => (None, if usesLastIndex R then 0 else lastIndex)
  | Some m => (Some m, if usesLastIndex R then endIndex m else lastIndex)
  end.

(** [R.test(S)] *)
Definition test (R : t) (lastIndex : nat) (S : jsstring) : bool * nat :=
  let (m, lastIndex') := exec R lastIndex S in
  (bool_decide (is_Some m), lastIndex').

(** The pattern matches somewhere in [S]. *)
Definition matchesSomewhere (R : t) (S : jsstring) : bool :=
  existsb (fun i => bool_decide (is_Some (matcher R S i)))
          (seq 0 (Datatypes.S (length S))).

End RegExp.

(** ** The patterns of the plugin *)

Module Patterns.

Definition orelse {A} (a b : option A) : option A :=
  match a with
  | Some x => Some x
  | None => b
  end.

(** Length of the longest prefix of [s] whose characters satisfy [p]. *)
Fixpoint spanLength (p : char → bool) (s : jsstring) : nat :=
  match s with
  | c :: s' => if p c then S (spanLength p s') else 0
  | [] => 0
  end.

(** The class of [mdRegex]: any character but a quote, a double quote
    (code 34), a closing parenthesis or bracket, a blank and [>]. *)
Definition isTargetChar (c : char) : bool :=
  negb (ch_eqb c (chr "'") || ch_eqb c 34%N || ch_eqb c (chr ")")
        || ch_eqb c (chr "]") || isWhiteSpace c || ch_eqb c (chr ">")).

(** [\.mdx?] at the start of [s]: the length matched, the [x] taken
    when it is there. *)
Definition matchMdExt (s : jsstring) : option nat :=
  if startsWith (str ".mdx") s then Some 4
  else if startsWith (str ".md") s then Some 3
  else None.

(** The class, once or more, then [\.mdx?], at the start of [s]: the
    class is tried with [k] characters, then with fewer, down to one;
    the length of the whole capture. *)
Fixpoint matchTarget (s : jsstring) (k : nat) : option nat :=
  match k with
  | 0 => None
  | S k' =>
      match matchMdExt (drop k s) with
      | Some e => Some (k + e)
      | None => matchTarget s k'
      end
  end.

(** [(?!https)] and the captured target after a prefix of [p] characters
    of [rest]: the prefix length and the capture length. *)
Definition matchAfterPrefix (rest : jsstring) (p : nat)
  : option (nat * nat) :=
  let s := drop p rest in
  if startsWith (str "https") s then None
  else (fun n => (p, n)) <$> matchTarget s (spanLength isTargetChar s).

(** The whole of [mdRegex] at the start of [rest]: the alternative
    [\]\(] first, then [\]:\s?] with the blank taken, then without. *)
Definition matchMdLink (rest : jsstring) : option (nat * nat) :=
  orelse
    (if startsWith (str "](") rest then matchAfterPrefix rest 2 else None)
    (if startsWith (str "]:") rest then
       orelse
         (match drop 2 rest with
          | c :: _ => if isWhiteSpace c then matchAfterPrefix rest 3
                      else None
          | [] => None
          end)
         (matchAfterPrefix rest 2)
     else None).

Definition mdMatcher (S : jsstring) (i : nat)
  : option (nat * list jsstring) :=
  if decide (i ≤ length S) then
    match matchMdLink (drop i S) with
    | Some (p, n) => Some (i + p + n, [take n (drop (i + p) S)])
    | None => None
    end
  else None.

(** [/(?:(?:\]\()|(?:\]:\s?))(?!https)([^'\x22)\]\s>]+\.mdx?)/g], the
    double quote of the class written [\x22] here. *)
Definition mdRegex : RegExp.t :=
  RegExp.mk mdMatcher true false.

(** [<!--\s*(truncate)\s*-->] at index [i]; each [\s*] takes the whole
    run of blanks, as the literal after it is not a blank. *)
Definition truncateMatcher (S : jsstring) (i : nat)
  : option (nat * list jsstring) :=
  let s0 := drop i S in
  if decide (i ≤ length S) then
    if startsWith (str "<!--") s0 then
      let s1 := drop 4 s0 in
      let w1 := spanLength isWhiteSpace s1 in
      let s2 := drop w1 s1 in
      if startsWith (str "truncate") s2 then
        let s3 := drop 8 s2 in
        let w2 := spanLength isWhiteSpace s3 in
        if startsWith (str "-->") (drop w2 s3) then
          Some (i + 4 + w1 + 8 + w2 + 3, [str "truncate"])
        else None
      else None
    else None
  else None.

(** [DEFAULT_OPTIONS.truncateMarker]: [/<!--\s*(truncate)\s*-->/] *)
Definition defaultTruncateMarker : RegExp.t :=
  RegExp.mk truncateMatcher false false.

(** [relativeSource.replace(/\.mdx?$/, '')] *)
Definition stripMdExt (s : jsstring) : jsstring :=
  if endsWith (str ".mdx") s then take (length s - 4) s
  else if endsWith (str ".md") s then take (length s - 3) s
  else s.

End Patterns.

Import Patterns.

(** ** Node's [path] module *)

Module Path.

(** The functions of [path] the plugin calls. *)
Record t := mk {
  join : jsstring → jsstring → jsstring;
  resolve : jsstring → jsstring → jsstring;
  relative : jsstring → jsstring → jsstring;
}.

Definition sep : char := chr "/".

Definition isAbsolute (p : jsstring) : bool := startsWith [sep] p.

(** normalizeString: [.] and empty segments go, [..] pops a segment or,
    above the root of a relative path, stays. *)
Fixpoint normalizeSegments (allowAboveRoot : bool) (acc : list jsstring)
  (segs : list jsstring) : list jsstring :=
  match segs with
  | [] => rev acc
  | s :: segs' =>
      if decide (s = []) then normalizeSegments allowAboveRoot acc segs'
      else if decide (s = str ".") then
        normalizeSegments allowAboveRoot acc segs'
      else if decide (s = str "..") then
        match acc with
        | a :: acc' =>
            if decide (a = str "..") then
              normalizeSegments allowAboveRoot (s :: acc) segs'
            else normalizeSegments allowAboveRoot acc' segs'
        | [] =>
            if allowAboveRoot then
              normalizeSegments allowAboveRoot [s] segs'
            else normalizeSegments allowAboveRoot [] segs'
        end
      else normalizeSegments allowAboveRoot (s :: acc) segs'
  end.

Definition segments (p : jsstring) : list jsstring :=
  normalizeSegments (negb (isAbsolute p)) [] (Js.split sep p).

Definition append (a b : jsstring) : jsstring :=
  match a with
  | [] => b
  | _ => a ++ sep :: b
  end.

(** [path.posix.resolve(a, b)] in working directory [cwd]. *)
Definition posixResolve (cwd a b : jsstring) : jsstring :=
  let p1 := if isAbsolute b then b else append a b in
  let p2 := if isAbsolute p1 then p1 else append cwd p1 in
  sep :: Js.join sep (segments p2).

(** [path.posix.join(a, b)] *)
Definition posixJoin (a b : jsstring) : jsstring :=
  let p := append a b in
  match Js.join sep (segments p) with
  | [] => if isAbsolute p then [sep] else str "."
  | q => if isAbsolute p then sep :: q else q
  end.

Fixpoint stripCommon (xs ys : list jsstring)
  : list jsstring * list jsstring :=
  match xs, ys with
  | x :: xs', y :: ys' =>
      if decide (x = y) then stripCommon xs' ys' else (xs, ys)
  | _, _ => (xs, ys)
  end.

(** [path.posix.relative(from, to)] in working directory [cwd]. *)
Definition posixRelative (cwd from to : jsstring) : jsstring :=
  let f := segments (posixResolve cwd from []) in
  let t := segments (posixResolve cwd to []) in
  let (f', t') := stripCommon f t in
  Js.join sep (List.map (fun _ => str "..") f' ++ t').

Definition posix (cwd : jsstring) : t :=
  mk posixJoin (posixResolve cwd) (posixRelative cwd).

End Path.

(** ** Data model (types.d.ts) *)

Record Paginator := mkPaginator {
  pg_title : jsstring;
  pg_permalink : jsstring;
}.

Inductive Tag :=
| TagName (name : jsstring)
| TagLink (label permalink : jsstring).

Module Release.

Record MetaData := mkMetaData {
  coverLabel : jsstring;
  description : option jsstring;
  nextItem : option Paginator;
  permalink : jsstring;
  prevItem : option Paginator;
  readingTime : jsstring;
  seriesPosition : option Z;
  sort : option Z;
  source : jsstring;
  title : jsstring;
  truncated : bool;
}.

Record t := mk {
  id : option jsstring;
  metadata : MetaData;
}.

End Release.

Module Highlight.

Record MetaData := mkMetaData {
  date : option jsstring;
  description : option jsstring;
  nextItem : option Paginator;
  permalink : jsstring;
  prevItem : option Paginator;
  readingTime : jsstring;
  seriesPosition : option Z;
  sort : option Z;
  source : jsstring;
  tags : list Tag;
  title : jsstring;
  truncated : bool;
}.

Record t := mk {
  id : option jsstring;
  metadata : MetaData;
}.

End Highlight.

(** The front matter fields the plugin reads, with the types of
    types.d.ts; an absent field is [None]. A front matter with an
    [id] of another type, on which [normalizeUrl] throws, is not of
    this type. *)
Record FrontMatter := mkFrontMatter {
  fm_id : option jsstring;
  fm_title : option jsstring;
  fm_description : option jsstring;
  fm_date : option jsstring;
  fm_series_position : option Z;
  fm_sort : option Z;
  fm_cover_label : option jsstring;
  fm_draft : option bool;
  fm_tags : option (list Tag);
}.

(** What [parse] of @docusaurus/utils returns. *)
Record Parsed := mkParsed {
  frontMatter : FrontMatter;
  content : jsstring;
  excerpt : option jsstring;
}.

Record PluginOptions := mkOptions {
  path : jsstring;
  routeBasePath : jsstring;
  include : list jsstring;
  releaseComponent : jsstring;
  releaseDownloadComponent : jsstring;
  releaseHighlightComponent : jsstring;
  releaseListComponent : jsstring;
  remarkPlugins : list jsstring;
  rehypePlugins : list jsstring;
  truncateMarker : option RegExp.t;
}.

(** [DEFAULT_OPTIONS] of index.js. *)
Definition DEFAULT_OPTIONS : PluginOptions :=
  {| path := str "releases";
     routeBasePath := str "releases-new";
     include := [str "*.md"; str "*.mdx"];
     releaseComponent := str "@theme/ReleasePage";
     releaseDownloadComponent := str "@theme/ReleaseDownloadPage";
     releaseHighlightComponent := str "@theme/ReleaseHighlightPage";
     releaseListComponent := str "@theme/ReleaseListPage";
     remarkPlugins := [];
     rehypePlugins := [];
     truncateMarker := Some defaultTruncateMarker |}.

(** The fields of the load context the plugin reads. *)
Record LoadContext := mkContext {
  baseUrl : option jsstring;
  siteDir : jsstring;
  generatedFilesDir : jsstring;
}.

(** ** The host *)

(** The collaborators of the plugin: fs-extra, globby, reading-time,
    @docusaurus/utils, Node's path and the environment. *)
Record Host := mkHost {
  existsSync : jsstring → bool;
  globby : list jsstring → jsstring → list jsstring;
  (** [None]: the read fails. *)
  readFile : jsstring → option jsstring;
  (** [readingTime(s).text] *)
  readingTimeText : jsstring → jsstring;
  (** [None]: the parser throws. *)
  parse : jsstring → option Parsed;
  normalizeUrl : list jsstring → jsstring;
  aliasedSitePath : jsstring → jsstring → jsstring;
  pathModule : Path.t;
  NODE_ENV : option jsstring;
  (** The order in which pending reads of the given files complete: some
      permutation of them. *)
  completionOrder : list jsstring → list jsstring;
}.

(** A rejected promise aborts the pass; what the store holds after a
    rejection is not modelled. *)
Inductive error :=
| ReadFailure (file : jsstring)
| ParseFailure (file : jsstring).

Inductive result (A : Type) :=
| Ok (a : A)
| Rejected (e : error).

Arguments Ok {A} a.
Arguments Rejected {A} e.

#[global] Instance result_ret : MRet result := fun A a => Ok a.

#[global] Instance result_bind : MBind result := fun A B k m =>
  match m with
  | Ok a => k a
  | Rejected e => Rejected e
  end.

(** ** releaseUtils.js *)

(** [frontMatter.draft && process.env.NODE_ENV === 'production'] *)
Definition isDraft (fm : FrontMatter) : bool :=
  match fm_draft fm with
  | Some b => b
  | None => false
  end.

Definition isProduction (h : Host) : bool :=
  bool_decide (NODE_ENV h = Some (str "production")).

(** [truncateMarker?.test(content) || false], the marker's [lastIndex]
    passed along. *)
Definition testTruncated (truncateMarker : option RegExp.t)
  (lastIndex : nat) (content : jsstring) : bool * nat :=
  match truncateMarker with
  | None => (false, lastIndex)
  | Some R => RegExp.test R lastIndex content
  end.

Definition baseUrlOf (ctx : LoadContext) : jsstring :=
  default [] (baseUrl ctx).

(** The document [generateReleases] pushes for one parsed file. *)
Definition releaseOf (h : Host) (ctx : LoadContext) (options : PluginOptions)
  (relativeSource aliasedSource fileString : jsstring) (parsed : Parsed)
  (isTruncated : bool) : Release.t :=
  let fm := frontMatter parsed in
  let linkName := stripMdExt relativeSource in
  let seriesPosition := fm_series_position fm in
  let title := or_string (fm_title fm) linkName in
  let coverLabel := or_string (fm_cover_label fm) title in
  {| Release.id := or_else (fm_id fm) (fm_title fm);
     Release.metadata :=
       {| Release.coverLabel := coverLabel;
          Release.description :=
            or_else (fm_description fm) (excerpt parsed);
          Release.nextItem := None;
          Release.permalink :=
            normalizeUrl h
              [baseUrlOf ctx; routeBasePath options;
               or_string (fm_id fm) linkName];
          Release.prevItem := None;
          Release.readingTime := readingTimeText h fileString;
          Release.seriesPosition := seriesPosition;
          Release.sort := fm_sort fm;
          Release.source := aliasedSource;
          Release.title := title;
          Release.truncated := isTruncated |} |}.

(** The document [generateHighlights] pushes for one parsed file. *)
Definition highlightOf (h : Host) (ctx : LoadContext)
  (options : PluginOptions)
  (relativeSource aliasedSource fileString : jsstring) (parsed : Parsed)
  (isTruncated : bool) : Highlight.t :=
  let fm := frontMatter parsed in
  let date := fm_date fm in
  let linkName := stripMdExt relativeSource in
  let seriesPosition := fm_series_position fm in
  let tags := default [] (fm_tags fm) in
  let title := or_string (fm_title fm) linkName in
  {| Highlight.id := or_else (fm_id fm) (fm_title fm);
     Highlight.metadata :=
       {| Highlight.date := date;
          Highlight.description :=
            or_else (fm_description fm) (excerpt parsed);
          Highlight.nextItem := None;
          Highlight.permalink :=
            normalizeUrl h
              [baseUrlOf ctx; routeBasePath options;
               or_string (fm_id fm) linkName];
          Highlight.prevItem := None;
          Highlight.readingTime := readingTimeText h fileString;
          Highlight.seriesPosition := seriesPosition;
          Highlight.sort := fm_sort fm;
          Highlight.source := aliasedSource;
          Highlight.tags := tags;
          Highlight.title := title;
          Highlight.truncated := isTruncated |} |}.

(** The callback mapped over the matched files: read, parse, skip a
    draft in production, else build the document. [mkDoc] is the object
    literal pushed; the state is the marker's [lastIndex]. *)
Definition processFile {Doc} (h : Host) (releaseDir : jsstring)
  (ctx : LoadContext) (options : PluginOptions)
  (mkDoc : jsstring → jsstring → jsstring → Parsed → bool → Doc)
  (relativeSource : jsstring) (lastIndex : nat)
  : result (option Doc * nat) :=
  let source := Path.join (pathModule h) releaseDir relativeSource in
  let aliasedSource := aliasedSitePath h source (siteDir ctx) in
  match readFile h source with
  | None => Rejected (ReadFailure source)
  | Some fileString =>
      match parse h fileString with
      | None => Rejected (ParseFailure source)
      | Some parsed =>
          if isDraft (frontMatter parsed) && isProduction h then
            Ok (None, lastIndex)
          else
            let (isTruncated, lastIndex') :=
              testTruncated (truncateMarker options) lastIndex
                            (content parsed) in
            Ok (Some (mkDoc relativeSource aliasedSource fileString parsed
                            isTruncated),
                lastIndex')
      end
  end.

(** [await Promise.all(files.map(async ...))]: the callbacks resume in
    the order [completed] in which the reads complete, each pushing its
    document; the first rejection rejects the whole. *)
Fixpoint gather {Doc} (f : jsstring → nat → result (option Doc * nat))
  (completed : list jsstring) (lastIndex : nat) : result (list Doc * nat) :=
  match completed with
  | [] => Ok ([], lastIndex)
  | relativeSource :: rest =>
      '(doc, lastIndex') ← f relativeSource lastIndex;
      '(docs, lastIndex'') ← gather f rest lastIndex';
      Ok (match doc with
          | Some d => d :: docs
          | None => docs
          end, lastIndex'')
  end.

(** [generateReleases(releaseDir, {siteConfig, siteDir}, options)]; the
    state passed along is the [lastIndex] of [options.truncateMarker]. *)
Definition generateReleases (h : Host) (releaseDir : jsstring)
  (ctx : LoadContext) (options : PluginOptions) (lastIndex : nat)
  : result (list Release.t * nat) :=
  if negb (existsSync h releaseDir) then Ok ([], lastIndex)
  else
    let releaseFiles := globby h (include options) releaseDir in
    gather (processFile h releaseDir ctx options (releaseOf h ctx options))
           (completionOrder h releaseFiles) lastIndex.

(** [generateHighlights(releaseDir, {siteConfig, siteDir}, options)] *)
Definition generateHighlights (h : Host) (releaseDir : jsstring)
  (ctx : LoadContext) (options : PluginOptions) (lastIndex : nat)
  : result (list Highlight.t * nat) :=
  if negb (existsSync h releaseDir) then Ok ([], lastIndex)
  else
    let highlightInclude :=
      List.map (fun glob => str "highlights/" ++ glob) (include options) in
    let highlightFiles := globby h highlightInclude releaseDir in
    gather (processFile h releaseDir ctx options (highlightOf h ctx options))
           (completionOrder h highlightFiles) lastIndex.

(** The last release whose source is [aliasedPostSource] gives
    [releasePermalink]; [None] is the initial [null]. *)
Definition findPermalink (releases : list Release.t)
  (aliasedPostSource : jsstring) : option jsstring :=
  foldl (fun releasePermalink release =>
           if decide (Release.source (Release.metadata release)
                      = aliasedPostSource)
           then Some (Release.permalink (Release.metadata release))
           else releasePermalink)
        None releases.

Definition aliasedPostSourceOf (P : Path.t) (siteDir releasePath mdLink
  : jsstring) : jsstring :=
  str "@site/" ++ Path.relative P siteDir (Path.resolve P releasePath mdLink).

(** The body of the while loop of [linkify]: the line after the
    replacement, if any, for the target [mdLink]. *)
Definition rewriteTarget (P : Path.t) (siteDir releasePath : jsstring)
  (releases : list Release.t) (modifiedLine mdLink : jsstring) : jsstring :=
  let aliasedPostSource := aliasedPostSourceOf P siteDir releasePath mdLink in
  match findPermalink releases aliasedPostSource with
  | Some (c :: p) => Js.replace modifiedLine mdLink (c :: p)
  | _ => modifiedLine
  end.

(** The while loop of [linkify], [mdRegex.exec] at its head; [fuel]
    bounds the number of calls of [exec], and [None] means they ran
    out. *)
Fixpoint linkifyLoop (P : Path.t) (siteDir releasePath : jsstring)
  (releases : list Release.t) (fuel : nat) (modifiedLine : jsstring)
  (lastIndex : nat) : option jsstring :=
  match fuel with
  | 0 => None
  | S fuel' =>
      match RegExp.exec mdRegex lastIndex modifiedLine with
      | (None, _) => Some modifiedLine
      | (Some mdMatch, lastIndex') =>
          let mdLink := List.nth 0 (RegExp.captures mdMatch) [] in
          linkifyLoop P siteDir releasePath releases fuel'
            (rewriteTarget P siteDir releasePath releases modifiedLine mdLink)
            lastIndex'
      end
  end.

Definition isFence (line : jsstring) : bool :=
  startsWith (str "```") (trim line).

(** The callback mapped over the lines, with [fencedBlock] before and
    after. *)
Definition linkifyLine (P : Path.t) (siteDir releasePath : jsstring)
  (releases : list Release.t) (fuel : nat) (fencedBlock : bool)
  (line : jsstring) : option (jsstring * bool) :=
  let fencedBlock := if isFence line then negb fencedBlock else fencedBlock in
  if fencedBlock then Some (line, fencedBlock)
  else
    modifiedLine ← linkifyLoop P siteDir releasePath releases fuel line 0;
    Some (modifiedLine, fencedBlock).

Fixpoint linkifyLines (P : Path.t) (siteDir releasePath : jsstring)
  (releases : list Release.t) (fuel : nat) (fencedBlock : bool)
  (lines : list jsstring) : option (list jsstring) :=
  match lines with
  | [] => Some []
  | line :: rest =>
      '(line', fencedBlock') ←
        linkifyLine P siteDir releasePath releases fuel fencedBlock line;
      rest' ← linkifyLines P siteDir releasePath releases fuel fencedBlock'
                           rest;
      Some (line' :: rest')
  end.

(** [linkify(fileContent, siteDir, releasePath, releases)] *)
Definition linkify (P : Path.t) (fuel : nat)
  (fileContent siteDir releasePath : jsstring) (releases : list Release.t)
  : option jsstring :=
  lines ← linkifyLines P siteDir releasePath releases fuel false
                       (Js.split 10%N fileContent);
  Some (Js.join 10%N lines).

(** The scan of [fileString.split(truncateMarker, 1)] on a text that is
    not empty: the marker is tried at [q], then further on, [n]
    positions remaining; a match that ends at index 0 is passed over;
    the first piece is the text before the match, or the whole text. *)
Fixpoint splitHead (R : RegExp.t) (S : jsstring) (q n : nat) : jsstring :=
  match n with
  | 0 => S
  | Datatypes.S n' =>
      match RegExp.matcher R S q with
      | Some (e, _) =>
          if decide (Nat.min e (length S) = 0)
          then splitHead R S (Datatypes.S q) n'
          else take q S
      | None => splitHead R S (Datatypes.S q) n'
      end
  end.

(** [truncate(fileString, truncateMarker)]:
    [fileString.split(truncateMarker, 1).shift()]. The split works on a
    sticky copy of the marker, so the [lastIndex] of the marker plays no
    part; [None] is [undefined], the head of no piece at all. *)
Definition truncate (fileString : jsstring) (truncateMarker : RegExp.t)
  : option jsstring :=
  match fileString with
  | [] =>
      match RegExp.matcher truncateMarker [] 0 with
      | Some _ => None
      | None => Some []
      end
  | _ => Some (splitHead truncateMarker fileString 0 (length fileString))
  end.

(** ** index.js: the prev/next pass of loadContent *)

(** Documents are objects of the store; an array holds their
    locations. *)
Inductive obj :=
| ORelease (r : Release.t)
| OHighlight (r : Highlight.t).

Abbreviation loc := nat.
Abbreviation heap := (list obj).

Definition obj_title (o : obj) : jsstring :=
  match o with
  | ORelease r => Release.title (Release.metadata r)
  | OHighlight r => Highlight.title (Highlight.metadata r)
  end.

Definition obj_permalink (o : obj) : jsstring :=
  match o with
  | ORelease r => Release.permalink (Release.metadata r)
  | OHighlight r => Highlight.permalink (Highlight.metadata r)
  end.

Definition obj_prevItem (o : obj) : option Paginator :=
  match o with
  | ORelease r => Release.prevItem (Release.metadata r)
  | OHighlight r => Highlight.prevItem (Highlight.metadata r)
  end.

Definition obj_nextItem (o : obj) : option Paginator :=
  match o with
  | ORelease r => Release.nextItem (Release.metadata r)
  | OHighlight r => Highlight.nextItem (Highlight.metadata r)
  end.

(** [o.metadata.prevItem = p] *)
Definition set_prevItem (p : option Paginator) (o : obj) : obj :=
  match o with
  | ORelease (Release.mk i
      (Release.mkMetaData cl d n pl _ rt sp so src t tr)) =>
      ORelease (Release.mk i
        (Release.mkMetaData cl d n pl p rt sp so src t tr))
  | OHighlight (Highlight.mk i
      (Highlight.mkMetaData da d n pl _ rt sp so src tg t tr)) =>
      OHighlight (Highlight.mk i
        (Highlight.mkMetaData da d n pl p rt sp so src tg t tr))
  end.

(** [o.metadata.nextItem = p] *)
Definition set_nextItem (p : option Paginator) (o : obj) : obj :=
  match o with
  | ORelease (Release.mk i
      (Release.mkMetaData cl d _ pl pv rt sp so src t tr)) =>
      ORelease (Release.mk i
        (Release.mkMetaData cl d p pl pv rt sp so src t tr))
  | OHighlight (Highlight.mk i
      (Highlight.mkMetaData da d _ pl pv rt sp so src tg t tr)) =>
      OHighlight (Highlight.mk i
        (Highlight.mkMetaData da d p pl pv rt sp so src tg t tr))
  end.

(** [{title: o.metadata.title, permalink: o.metadata.permalink}] *)
Definition paginatorOf (o : obj) : Paginator :=
  {| pg_title := obj_title o; pg_permalink := obj_permalink o |}.

(** The callback of [forEach] at [index]: [items] is the array, [h] the
    store. *)
Definition colocateAt (items : list loc) (h : heap) (index : nat) : heap :=
  match items !! index with
  | None => h
  | Some release =>
      let prevItem :=
        if decide (0 < index) then items !! (index - 1) ≫= (h !!.)
        else None in
      let h1 :=
        match prevItem with
        | Some p => alter (set_prevItem (Some (paginatorOf p))) release h
        | None => h
        end in
      let nextItem :=
        if decide (index < length items - 1)
        then items !! (index + 1) ≫= (h1 !!.)
        else None in
      match nextItem with
      | Some n => alter (set_nextItem (Some (paginatorOf n))) release h1
      | None => h1
      end
  end.

(** [items.forEach((item, index) => ...)]: the sequence linker. *)
Definition colocate (items : list loc) (h : heap) : heap :=
  foldl (colocateAt items) h (seq 0 (length items)).

(** [new] objects go to the end of the store. *)
Definition alloc (os : list obj) (h : heap) : list loc * heap :=
  (seq (length h) (length os), h ++ os).

(** The variables of the closure of [pluginContentRelease], the store
    and the marker's [lastIndex]. *)
Record PluginState := mkState {
  store : heap;
  releases : list loc;
  releaseHighlights : list loc;
  markerLastIndex : nat;
}.

Definition initialState : PluginState :=
  {| store := []; releases := []; releaseHighlights := [];
     markerLastIndex := 0 |}.

(** [loadContent()] of the plugin made by
    [pluginContentRelease(context, options)]. *)
Definition loadContent (h : Host) (context : LoadContext)
  (options : PluginOptions) (st : PluginState) : result PluginState :=
  let contentPath :=
    Path.resolve (pathModule h) (siteDir context) (path options) in
  '(rs, lastIndex1) ←
    generateReleases h contentPath context options (markerLastIndex st);
  let '(releases, h1) := alloc (ORelease <$> rs) (store st) in
  let h2 := colocate releases h1 in
  '(hs, lastIndex2) ←
    generateHighlights h contentPath context options lastIndex1;
  let '(releaseHighlights, h3) := alloc (OHighlight <$> hs) h2 in
  let h4 := colocate releaseHighlights h3 in
  Ok {| store := h4; releases := releases;
        releaseHighlights := releaseHighlights;
        markerLastIndex := lastIndex2 |}.

(** *** The rest of index.js *)

(** [getPathsToWatch()] *)
Definition getPathsToWatch (contentPath : jsstring) (options : PluginOptions)
  : list jsstring :=
  let releasesGlobPattern :=
    List.map (fun pattern => contentPath ++ str "/" ++ pattern)
             (include options) in
  let highlightsGlobPattern :=
    List.map (fun pattern => contentPath ++ str "/highlights/" ++ pattern)
             (include options) in
  releasesGlobPattern ++ highlightsGlobPattern.

Definition obj_source (o : obj) : jsstring :=
  match o with
  | ORelease r => Release.source (Release.metadata r)
  | OHighlight r => Highlight.source (Highlight.metadata r)
  end.

(** The modules of a route: the items of the list page, each
    [{content: {__import: true, path, query: {truncated: true}}}] and
    given here by its path, or the content of a page. *)
Inductive RouteModules :=
| ItemsModule (paths : list jsstring)
| ContentModule (content : jsstring).

Record Route := mkRoute {
  route_path : jsstring;
  route_component : jsstring;
  route_exact : bool;
  route_modules : RouteModules;
}.

(** What [contentLoaded] does to the outside, in order. *)
Inductive Action :=
| AddRoute (route : Route)
| CreateData (name data : jsstring)
| ConsoleLog (items : list loc).

(** What [contentLoaded] and [configureWebpack] take from outside the
    host: [docuHash], [JSON.stringify(metadata, null, 2)] and the order
    in which the calls of [createData], taken to succeed, complete. *)
Record Build := mkBuild {
  docuHash : jsstring → jsstring;
  stringify : obj → jsstring;
  dataOrder : list loc → list loc;
}.

(** [`${docuHash(metadata.source)}.json`] *)
Definition dataName (B : Build) (o : obj) : jsstring :=
  docuHash B (obj_source o) ++ str ".json".

Definition createDataOf (B : Build) (o : obj) : Action :=
  CreateData (dataName B o) (stringify B o).

(** The two routes of a release: its page and its download page. *)
Definition releaseRoutes (h : Host) (options : PluginOptions) (o : obj)
  : list Action :=
  let downloadPath := normalizeUrl h [obj_permalink o; str "download"] in
  [ AddRoute {| route_path := obj_permalink o;
                route_component := releaseComponent options;
                route_exact := true;
                route_modules := ContentModule (obj_source o) |};
    AddRoute {| route_path := downloadPath;
                route_component := releaseDownloadComponent options;
                route_exact := true;
                route_modules := ContentModule (obj_source o) |} ].

Definition highlightRoute (options : PluginOptions) (o : obj) : Action :=
  AddRoute {| route_path := obj_permalink o;
              route_component := releaseHighlightComponent options;
              route_exact := true;
              route_modules := ContentModule (obj_source o) |}.

(** [contentLoaded({content, actions})] of the compiled index.js: the
    list page, then for the
    releases the calls of [createData] in the order of the array and the
    routes in the order of completion, then the same for the
    highlights. *)
Definition contentLoaded (h : Host) (B : Build) (context : LoadContext)
  (options : PluginOptions) (store : heap)
  (releaseContents : option (list loc * list loc)) : list Action :=
  match releaseContents with
  | None => []
  | Some (releases, releaseHighlights) =>
      let basePageUrl :=
        normalizeUrl h [baseUrlOf context; routeBasePath options] in
      [ AddRoute {| route_path := basePageUrl;
                    route_component := releaseListComponent options;
                    route_exact := true;
                    route_modules :=
                      ItemsModule
                        (obj_source <$> omap (store !!.) releases) |} ]
      ++ (createDataOf B <$> omap (store !!.) releases)
      ++ (omap (store !!.) (dataOrder B releases)
          ≫= releaseRoutes h options)
      ++ [ConsoleLog releaseHighlights]
      ++ (createDataOf B <$> omap (store !!.) releaseHighlights)
      ++ (highlightRoute options
          <$> omap (store !!.) (dataOrder B releaseHighlights))
  end.

(** The route of the highlights list page, which the TypeScript source
    of the plugin adds last and the compiled index.js leaves out;
    [releaseHighlightsListComponent] is an option of that source
    only. *)
Definition highlightsListRoute (h : Host) (context : LoadContext)
  (options : PluginOptions) (releaseHighlightsListComponent : jsstring)
  (store : heap) (releaseHighlights : list loc) : Route :=
  let basePageUrl :=
    normalizeUrl h [baseUrlOf context; routeBasePath options] in
  let highlightsPath := normalizeUrl h [basePageUrl; str "highlights"] in
  {| route_path := highlightsPath;
     route_component := releaseHighlightsListComponent;
     route_exact := true;
     route_modules :=
       ItemsModule (obj_source <$> omap (store !!.) releaseHighlights) |}.

(** [contentLoaded] as the TypeScript source has it: the same calls
    without the [console.log], then the highlights list page. *)
Definition contentLoadedTs (h : Host) (B : Build) (context : LoadContext)
  (options : PluginOptions) (releaseHighlightsListComponent : jsstring)
  (store : heap) (releaseContents : option (list loc * list loc))
  : list Action :=
  match releaseContents with
  | None => []
  | Some (releases, releaseHighlights) =>
      let basePageUrl :=
        normalizeUrl h [baseUrlOf context; routeBasePath options] in
      [ AddRoute {| route_path := basePageUrl;
                    route_component := releaseListComponent options;
                    route_exact := true;
                    route_modules :=
                      ItemsModule
                        (obj_source <$> omap (store !!.) releases) |} ]
      ++ (createDataOf B <$> omap (store !!.) releases)
      ++ (omap (store !!.) (dataOrder B releases)
          ≫= releaseRoutes h options)
      ++ (createDataOf B <$> omap (store !!.) releaseHighlights)
      ++ (highlightRoute options
          <$> omap (store !!.) (dataOrder B releaseHighlights))
      ++ [ AddRoute (highlightsListRoute h context options
                       releaseHighlightsListComponent store
                       releaseHighlights) ]
  end.

(** [dataDir] of [pluginContentRelease]. *)
Definition dataDirOf (h : Host) (context : LoadContext) : jsstring :=
  Path.join (pathModule h) (generatedFilesDir context) (str "releases").

(** [metadataPath] given to the mdx loader by [configureWebpack]. *)
Definition metadataPath (h : Host) (B : Build) (context : LoadContext)
  (mdxPath : jsstring) : jsstring :=
  let aliasedSource := aliasedSitePath h mdxPath (siteDir context) in
  Path.join (pathModule h) (dataDirOf h context)
            (docuHash B aliasedSource ++ str ".json").

(** ** Notions used to state the properties *)

(** *** Documents and their files *)

(** The text and the parse of a matched file, when both succeed. *)
Definition fileParsed (h : Host) (releaseDir relativeSource : jsstring)
  : option (jsstring * Parsed) :=
  fileString ←
    readFile h (Path.join (pathModule h) releaseDir relativeSource);
  parsed ← parse h fileString;
  Some (fileString, parsed).

Definition allParsed (h : Host) (releaseDir : jsstring)
  (files : list jsstring) : Prop :=
  ∀ f, f ∈ files → is_Some (fileParsed h releaseDir f).

Definition fileIsDraft (h : Host) (releaseDir relativeSource : jsstring)
  : bool :=
  match fileParsed h releaseDir relativeSource with
  | Some (_, parsed) => isDraft (frontMatter parsed)
  | None => false
  end.

(** The files a collection has a document for: all of them, or, in
    production, those that are not drafts. *)
Definition keptFiles (h : Host) (releaseDir : jsstring)
  (files : list jsstring) : list jsstring :=
  if isProduction h
  then List.filter (fun f => negb (fileIsDraft h releaseDir f)) files
  else files.

(** The matched files in the order their reads complete. *)
Definition releaseFilesOf (h : Host) (releaseDir : jsstring)
  (options : PluginOptions) : list jsstring :=
  completionOrder h (globby h (include options) releaseDir).

Definition highlightFilesOf (h : Host) (releaseDir : jsstring)
  (options : PluginOptions) : list jsstring :=
  completionOrder h
    (globby h (List.map (fun glob => str "highlights/" ++ glob)
                        (include options)) releaseDir).

(** [doc] is the document made from the file [relativeSource]. *)
Definition builtFrom {Doc} (h : Host) (releaseDir : jsstring)
  (ctx : LoadContext)
  (mkDoc : jsstring → jsstring → jsstring → Parsed → bool → Doc)
  (relativeSource : jsstring) (doc : Doc) : Prop :=
  ∃ fileString parsed isTruncated,
    fileParsed h releaseDir relativeSource = Some (fileString, parsed)
    ∧ doc = mkDoc relativeSource
              (aliasedSitePath h
                 (Path.join (pathModule h) releaseDir relativeSource)
                 (siteDir ctx))
              fileString parsed isTruncated.

(** What a document owes to its file and to the state of the marker
    when its turn came. *)
Definition producedBy {Doc} (h : Host) (releaseDir : jsstring)
  (ctx : LoadContext) (options : PluginOptions)
  (mkDoc : jsstring → jsstring → jsstring → Parsed → bool → Doc)
  (f : jsstring) (d : Doc) : Prop :=
  ∃ fileString parsed lastIndex,
    fileParsed h releaseDir f = Some (fileString, parsed)
    ∧ d = mkDoc f
            (aliasedSitePath h (Path.join (pathModule h) releaseDir f)
                             (siteDir ctx))
            fileString parsed
            (testTruncated (truncateMarker options) lastIndex
                           (content parsed)).1.

(** The marker pattern matches somewhere in the body. *)
Definition markerMatches (truncateMarker : option RegExp.t)
  (body : jsstring) : bool :=
  match truncateMarker with
  | Some R => RegExp.matchesSomewhere R body
  | None => false
  end.

(** The permalink of a file as the specification derives it: the base
    url, the route prefix and the front-matter id or, without one, the
    file name less its extension, normalised. *)
Definition permalinkOfFile (h : Host) (releaseDir : jsstring)
  (ctx : LoadContext) (options : PluginOptions) (relativeSource : jsstring)
  : jsstring :=
  let identifier :=
    match fileParsed h releaseDir relativeSource with
    | Some (_, parsed) =>
        or_string (fm_id (frontMatter parsed)) (stripMdExt relativeSource)
    | None => stripMdExt relativeSource
    end in
  normalizeUrl h [baseUrlOf ctx; routeBasePath options; identifier].

(** *** Lines of linkify *)

Definition targetOf (m : RegExp.MatchResult) : jsstring :=
  List.nth 0 (RegExp.captures m) [].

(** Some document of the collection has the source the target resolves
    to, and a permalink that is not empty. *)
Definition resolves (P : Path.t) (siteDir releasePath : jsstring)
  (releases : list Release.t) (mdLink : jsstring) : bool :=
  truthy (findPermalink releases
            (aliasedPostSourceOf P siteDir releasePath mdLink)).

Definition fenceStep (fencedBlock : bool) (line : jsstring) : bool :=
  if isFence line then negb fencedBlock else fencedBlock.

(** An odd number of the lines up to and including line [i] start, once
    trimmed, with three backticks. *)
Definition fencedAfter (lines : list jsstring) (i : nat) : bool :=
  Nat.odd (length (List.filter isFence (take (S i) lines))).

(** No target found on [line] from index [from] on resolves. *)
Definition unresolvedFrom (P : Path.t) (siteDir releasePath : jsstring)
  (releases : list Release.t) (line : jsstring) (from : nat) : Prop :=
  ∀ li m li', from ≤ li →
    RegExp.exec mdRegex li line = (Some m, li') →
    resolves P siteDir releasePath releases (targetOf m) = false.

(** The same, computed. *)
Definition unresolvedFromb (P : Path.t) (siteDir releasePath : jsstring)
  (releases : list Release.t) (line : jsstring) (from : nat) : bool :=
  forallb (fun li =>
             match RegExp.exec mdRegex li line with
             | (Some m, _) =>
                 negb (resolves P siteDir releasePath releases (targetOf m))
             | (None, _) => true
             end)
          (seq from (S (length line) - from)).

(** The lines whose outcome is settled: line [i] of [lines] is [line]
    and comes out as the last argument. *)
Inductive lineOutcome (P : Path.t) (siteDir releasePath : jsstring)
  (releases : list Release.t) (fuel : nat) (lines : list jsstring) (i : nat)
  (line : jsstring) : jsstring → Prop :=
| Verbatim :
    fencedAfter lines i = true →
    lineOutcome P siteDir releasePath releases fuel lines i line line
| Untouched :
    fencedAfter lines i = false →
    unresolvedFrom P siteDir releasePath releases line 0 →
    lineOutcome P siteDir releasePath releases fuel lines i line line
| Rewritten pre target post permalink m lastIndex :
    fencedAfter lines i = false →
    line = pre ++ target ++ post →
    RegExp.exec mdRegex 0 line = (Some m, lastIndex) →
    targetOf m = target →
    length pre + length target = RegExp.endIndex m →
    indexOf target line = Some (length pre) →
    findPermalink releases
      (aliasedPostSourceOf P siteDir releasePath target) = Some permalink →
    permalink ≠ [] →
    chr "$" ∉ permalink →
    unresolvedFrom P siteDir releasePath releases
                   (pre ++ permalink ++ post) lastIndex →
    length (pre ++ permalink ++ post) < fuel →
    lineOutcome P siteDir releasePath releases fuel lines i line
                (pre ++ permalink ++ post).

(** *** Links in the store *)

Abbreviation links := (option Paginator * option Paginator)%type.

(** Overwrite the links that are given, keep the others. *)
Definition upd (a : links) (o : obj) : obj :=
  let o1 :=
    match a.1 with
    | Some p => set_prevItem (Some p) o
    | None => o
    end in
  match a.2 with
  | Some n => set_nextItem (Some n) o1
  | None => o1
  end.

Definition later (new old : links) : links :=
  (orelse new.1 old.1, orelse new.2 old.2).

(** What the callback at [index] assigns, read from the store [h]. *)
Definition assigned (items : list loc) (h : heap) (index : nat) : links :=
  (if decide (0 < index)
   then paginatorOf <$> (items !! (index - 1) ≫= (h !!.)) else None,
   if decide (index < length items - 1)
   then paginatorOf <$> (items !! (index + 1) ≫= (h !!.)) else None).

(** The links location [l] ends with after the callbacks at
    [indexes]. *)
Definition net (items : list loc) (h : heap) (l : loc) (indexes : list nat)
  (acc : links) : links :=
  foldl (fun acc index =>
           if decide (items !! index = Some l)
           then later (assigned items h index) acc else acc)
        acc indexes.

(** The document without its links. *)
Definition clearLinks (o : obj) : obj :=
  set_prevItem None (set_nextItem None o).

Definition unlinked (o : obj) : Prop :=
  obj_prevItem o = None ∧ obj_nextItem o = None.

(** Two stores with the same titles and permalinks. *)
Definition sameCore (h h' : heap) : Prop :=
  ∀ l : loc, paginatorOf <$> h !! l = paginatorOf <$> h' !! l.

(** The array [items] holds the documents [docs], links apart. *)
Definition holds (h : heap) (items : list loc) (docs : list obj) : Prop :=
  Forall2 (fun l d => ∃ o, h !! l = Some o ∧ clearLinks o = d) items docs.

(** Every document of [items] points to its neighbours in [items]: the
    first has no [prevItem], the last no [nextItem]. *)
Definition linked (h : heap) (items : list loc) : Prop :=
  ∀ i l, items !! i = Some l →
    ∃ o, h !! l = Some o
      ∧ (i = 0 → obj_prevItem o = None)
      ∧ (∀ l', 0 < i → items !! (i - 1) = Some l' →
           ∃ o', h !! l' = Some o'
             ∧ obj_prevItem o
               = Some {| pg_title := obj_title o';
                         pg_permalink := obj_permalink o' |})
      ∧ (i = length items - 1 → obj_nextItem o = None)
      ∧ (∀ l', items !! (i + 1) = Some l' →
           ∃ o', h !! l' = Some o'
             ∧ obj_nextItem o
               = Some {| pg_title := obj_title o';
                         pg_permalink := obj_permalink o' |}).

(** The links a pure pass would give: each document with the title
    and permalink of the one before and of the one after. *)
Definition linkPure (docs : list obj) : list obj :=
  imap (fun i d =>
          upd (match i with
               | 0 => None
               | S j => paginatorOf <$> docs !! j
               end,
               paginatorOf <$> docs !! (S i)) d)
       docs.

(** The marker reads no [lastIndex]. *)
Definition flagless (options : PluginOptions) : Prop :=
  ∀ R, truncateMarker options = Some R → RegExp.usesLastIndex R = false.

(** Every match of [R] is at least one character long and ends within
    the text. *)
Definition properMatches (R : RegExp.t) : Prop :=
  ∀ (S : jsstring) i e caps,
    RegExp.matcher R S i = Some (e, caps) → i < e ≤ length S.

(** The rejection of a batch, if any: that of the first file, in the
    order of completion, that cannot be read or parsed. *)
Fixpoint firstFailure (h : Host) (releaseDir : jsstring)
  (files : list jsstring) : option error :=
  match files with
  | [] => None
  | f :: rest =>
      let source := Path.join (pathModule h) releaseDir f in
      match readFile h source with
      | None => Some (ReadFailure source)
      | Some fileString =>
          match parse h fileString with
          | None => Some (ParseFailure source)
          | Some _ => firstFailure h releaseDir rest
          end
      end
  end.

(** The same outcome with another [lastIndex] left on the marker. *)
Definition relabel {A} (lastIndex : nat) (r : result (list A * nat))
  : result (list A * nat) :=
  match r with
  | Ok (docs, _) => Ok (docs, lastIndex)
  | Rejected e => Rejected e
  end.

(** [contentPath] of [pluginContentRelease]. *)
Definition contentPathOf (h : Host) (context : LoadContext)
  (options : PluginOptions) : jsstring :=
  Path.resolve (pathModule h) (siteDir context) (path options).

(** What [contentLoaded] does with the content [loadContent] left. *)
Definition loadedActions (h : Host) (B : Build) (context : LoadContext)
  (options : PluginOptions) (st : PluginState) : list Action :=
  contentLoaded h B context options (store st)
                (Some (releases st, releaseHighlights st)).

(** ** A sample site *)

Module Sample.

Definition site : jsstring := str "/site".
Definition contentPath : jsstring := str "/site/releases".

Definition P : Path.t := Path.posix site.

Definition context : LoadContext :=
  {| baseUrl := Some (str "/"); siteDir := site;
     generatedFilesDir := str "/site/.docusaurus" |}.

(** The url parts joined by one slash each. *)
Definition joinUrl (parts : list jsstring) : jsstring :=
  Path.sep ::
  Js.join Path.sep
    (List.filter (fun s => negb (bool_decide (s = [])))
                 (List.concat (List.map (Js.split Path.sep) parts))).

(** [`@site/${path.relative(siteDir, filePath)}`] *)
Definition aliasSitePath (filePath siteDir : jsstring) : jsstring :=
  str "@site/" ++ Path.relative P siteDir filePath.

(** A glob with at most one star, which stands for any characters but
    the separator. *)
Definition globMatch (pattern name : jsstring) : bool :=
  match Js.split (chr "*") pattern with
  | [whole] => bool_decide (name = whole)
  | [before; after] =>
      startsWith before name && endsWith after name
      && bool_decide (length before + length after ≤ length name)
      && forallb (fun c => negb (ch_eqb c Path.sep))
           (take (length name - length before - length after)
                 (drop (length before) name))
  | _ => false
  end.

Record File := mkFile {
  name : jsstring;
  text : jsstring;
  parsed : Parsed;
}.

Definition noFrontMatter : FrontMatter :=
  mkFrontMatter None None None None None None None None None.

Definition withId (id title : string) : FrontMatter :=
  mkFrontMatter (Some (str id)) (Some (str title)) None None None None
                None None None.

Definition draftOf (title : string) : FrontMatter :=
  mkFrontMatter None (Some (str title)) None None None None None
                (Some true) None.

Definition file (name text : string) (fm : FrontMatter) (body : string)
  : File :=
  mkFile (str name) (str text) (mkParsed fm (str body) None).

(** A host serving [files] from the content directory. *)
Definition host (files : list File) (env : option jsstring)
  (order : list jsstring → list jsstring) : Host :=
  {| existsSync := fun dir => bool_decide (dir = contentPath);
     globby := fun patterns cwd =>
       if decide (cwd = contentPath) then
         List.filter (fun n => existsb (fun p => globMatch p n) patterns)
                     (List.map name files)
       else [];
     readFile := fun file =>
       text <$> List.find
         (fun f => bool_decide (Path.join P contentPath (name f) = file))
         files;
     readingTimeText := fun _ => str "1 min read";
     parse := fun fileString =>
       parsed <$> List.find (fun f => bool_decide (text f = fileString))
                            files;
     normalizeUrl := joinUrl;
     aliasedSitePath := aliasSitePath;
     pathModule := P;
     NODE_ENV := env;
     completionOrder := order |}.

Definition production : option jsstring := Some (str "production").
Definition development : option jsstring := Some (str "development").

Definition files : list File :=
  [ file "v1.md" "one" (withId "v1" "Version 1")
         "First. <!-- truncate --> More.";
    file "v2.md" "two" (draftOf "Version 2") "Second, in the works.";
    file "v3.mdx" "three" noFrontMatter "Third.";
    file "highlights/h1.md" "h-one" (withId "h1" "Highlight 1") "News.";
    file "highlights/h2.md" "h-two" noFrontMatter
         "More news. <!--truncate-->" ].

(** Two files with one front-matter id. *)
Definition sameIdFiles : list File :=
  [ file "a.md" "a" (withId "v1" "Version 1") "First.";
    file "b.md" "b" (withId "v1" "Version 1, again") "Second." ].




(** A release as [linkify] reads it. *)
Definition release (source permalink : string) : Release.t :=
  Release.mk None
    (Release.mkMetaData (str "Release") None None (str permalink) None
                        (str "1 min read") None None (str source)
                        (str "Release") false).

Definition collection : list Release.t :=
  [ release "@site/releases/v1.md" "/releases/v1";
    release "@site/releases/v2.md" "/releases/v2";
    release "@site/releases/long-name-v1.md" "/r/1" ].

(** A collection with a document under a directory named [http:]. *)
Definition collectionWithHttpDir : list Release.t :=
  collection
  ++ [release "@site/releases/http:/example.com/doc.md" "/releases/doc"].

(** Two documents in a store, not linked yet. *)
Definition twoDocs : heap :=
  [ ORelease (release "@site/releases/v1.md" "/releases/v1");
    ORelease (release "@site/releases/v2.md" "/releases/v2") ].

(** A text of several lines. *)
Definition textOf (lines : list string) : jsstring :=
  Js.join 10%N (str <$> lines).

(** A page with a link that resolves, one that does not, a fenced
    block and an external link. *)
Definition page : jsstring :=
  textOf [ "See [v1](./v1.md) and [x](./none.md).";
           "```";
           "[a](./v1.md)";
           "```";
           "[ext](https://example.com/a.md)" ]%string.

Definition pageLinked : list jsstring :=
  [ str "See [v1](" ++ str "/releases/v1" ++ str ") and [x](./none.md).";
    str "```";
    str "[a](./v1.md)";
    str "```";
    str "[ext](https://example.com/a.md)" ].

(** A fence of three backticks shown inside a fence of four. *)
Definition nestedFence : jsstring :=
  textOf [ "````md"; "```"; "[a](./v1.md)"; "```"; "````" ]%string.

Definition nestedFenceLinked : jsstring :=
  textOf [ "````md"; "```"; "[a](/releases/v1)"; "```"; "````" ]%string.

(** What [generateReleases] returns for files and options. *)
Definition generated (files : list File) (options : PluginOptions)
  : list Release.t :=
  match generateReleases (host files production id) contentPath context
                         options 0 with
  | Ok (rs, _) => rs
  | Rejected _ => []
  end.

Definition generatedHighlights (files : list File)
  (options : PluginOptions) : list Highlight.t :=
  match generateHighlights (host files production id) contentPath context
                           options 0 with
  | Ok (hs, _) => hs
  | Rejected _ => []
  end.

(** The state after [loadContent] on the sample files. *)
Definition loaded : PluginState :=
  match loadContent (host files development id) context DEFAULT_OPTIONS
                    initialState with
  | Ok st => st
  | Rejected _ => initialState
  end.

(** A document for [a.md] whose permalink ends in a link to [a.md],
    after [n] characters. *)
Definition loopingCollection (n : nat) : list Release.t :=
  [ Release.mk None
      (Release.mkMetaData (str "Release") None None
         (replicate n (chr "x") ++ str "](a.md") None
         (str "1 min read") None None (str "@site/releases/a.md")
         (str "Release") false) ].

(** A build whose data calls complete last first. *)
Definition build : Build :=
  {| docuHash := fun source => str "doc-" ++ source;
     stringify := fun o => obj_title o;
     dataOrder := @rev loc |}.

(** Two documents that came with links. *)
Definition staleDocs : heap :=
  [ set_prevItem (Some (mkPaginator (str "Old") (str "/old")))
      (ORelease (release "@site/releases/v1.md" "/releases/v1"));
    set_nextItem (Some (mkPaginator (str "Old") (str "/old")))
      (ORelease (release "@site/releases/v2.md" "/releases/v2")) ].

(** Two releases, the first in a file named after its date. *)
Definition datedFiles : list File :=
  [ file "2020-04-01-first.md" "one" (withId "v1" "Version 1") "First.";
    file "v2.md" "two" noFrontMatter "Second." ].

(** The sample host, with an unreadable [v2.md]. *)
Definition brokenHost : Host :=
  let h := host files production id in
  {| existsSync := existsSync h;
     globby := globby h;
     readFile := fun file =>
       if decide (file = str "/site/releases/v2.md") then None
       else readFile h file;
     readingTimeText := readingTimeText h;
     parse := parse h;
     normalizeUrl := normalizeUrl h;
     aliasedSitePath := aliasedSitePath h;
     pathModule := pathModule h;
     NODE_ENV := NODE_ENV h;
     completionOrder := completionOrder h |}.

End Sample.

(** Case analysis on a document down to the fields of its metadata. *)
Ltac destruct_obj o := destruct o as [[? []]|[? []]].

(** * Properties *)

(** ** Strings *)

Section string_lemmas.

Lemma startsWith_prefix (p s : jsstring) :
  startsWith p s = true ↔ p `prefix_of` s.
Proof.
  revert s. induction p as [|c p IH]; intros s; simpl.
  - split; [intros _; apply prefix_nil | done].
  - destruct s as [|d s].
    + split; [done | intros H; by apply prefix_nil_not in H].
    + rewrite andb_true_iff, IH. unfold ch_eqb. rewrite N.eqb_eq.
      split.
      * intros [-> H]. by apply prefix_cons.
      * intros H. split;
          [by apply prefix_cons_inv_1 in H
          |by apply prefix_cons_inv_2 in H].
Qed.

Lemma startsWith_length (p s : jsstring) :
  startsWith p s = true → length p ≤ length s.
Proof. rewrite startsWith_prefix. apply prefix_length. Qed.

Lemma startsWith_take (p s : jsstring) n :
  startsWith p (take n s) = true → startsWith p s = true.
Proof.
  rewrite !startsWith_prefix. intros H. etrans; [exact H|].
  apply prefix_take.
Qed.

Lemma split_nonempty sep (s : jsstring) : Js.split sep s ≠ [].
Proof.
  destruct s as [|c s]; simpl; [done|].
  destruct (ch_eqb c sep); [done|]. by destruct (Js.split sep s).
Qed.

(** Splitting and joining again gives the text back. *)
Lemma join_split sep (s : jsstring) : Js.join sep (Js.split sep s) = s.
Proof.
  induction s as [|c s IH]; [done|]. simpl.
  pose proof (split_nonempty sep s) as Hne.
  destruct (Js.split sep s) as [|l ls] eqn:Es; [done|].
  destruct (ch_eqb c sep) eqn:E.
  - unfold ch_eqb in E. apply N.eqb_eq in E. subst c.
    simpl in *. by rewrite IH.
  - destruct ls; simpl in *; by rewrite <- IH.
Qed.

Lemma split_length_le sep (s : jsstring) line :
  line ∈ Js.split sep s → length line ≤ length s.
Proof.
  revert line. induction s as [|c s IH]; intros line; simpl.
  - intros ->%list_elem_of_singleton. done.
  - pose proof (split_nonempty sep s) as Hne.
    destruct (Js.split sep s) as [|l ls] eqn:Es; [done|].
    destruct (ch_eqb c sep).
    + intros [->|H]%elem_of_cons; [simpl; lia|].
      apply IH in H. simpl. lia.
    + intros [->|H]%elem_of_cons.
      * simpl. specialize (IH l ltac:(left)). lia.
      * specialize (IH line ltac:(by right)). simpl. lia.
Qed.

Lemma replace_at (pat pre post repl : jsstring) :
  indexOf pat (pre ++ pat ++ post) = Some (length pre) →
  Js.replace (pre ++ pat ++ post) pat repl
  = pre ++ getSubstitution pat pre post repl ++ post.
Proof.
  intros H. unfold Js.replace. rewrite H, take_app_length.
  by rewrite <- drop_drop, !drop_app_length.
Qed.

Lemma getSubstitution_plain (matched before after r : jsstring) :
  chr "$" ∉ r → getSubstitution matched before after r = r.
Proof.
  induction r as [|c r IH]; [done|]. intros Hnot.
  apply not_elem_of_cons in Hnot as [Hc Hr]. simpl.
  destruct (ch_eqb c (chr "$")) eqn:E.
  - unfold ch_eqb in E. apply N.eqb_eq in E. congruence.
  - by rewrite IH.
Qed.

End string_lemmas.

(** ** The link pattern *)

Section pattern_lemmas.

Lemma matchMdExt_bounds (s : jsstring) e :
  matchMdExt s = Some e → 3 ≤ e ≤ length s.
Proof.
  unfold matchMdExt. intros H.
  destruct (startsWith (str ".mdx") s) eqn:E1.
  - apply startsWith_length in E1.
    change (length (str ".mdx")) with 4 in E1. simplify_eq. lia.
  - destruct (startsWith (str ".md") s) eqn:E2; [|done].
    apply startsWith_length in E2.
    change (length (str ".md")) with 3 in E2. simplify_eq. lia.
Qed.

Lemma matchTarget_bounds (s : jsstring) k n :
  matchTarget s k = Some n → 4 ≤ n ≤ length s.
Proof.
  induction k as [|k IH]; simpl; [done|].
  destruct (matchMdExt (drop (S k) s)) as [e|] eqn:E; [|exact IH].
  intros [= <-]. apply matchMdExt_bounds in E.
  rewrite length_drop in E. lia.
Qed.

Lemma matchAfterPrefix_spec (rest : jsstring) p r :
  matchAfterPrefix rest p = Some r →
  ∃ n, r = (p, n) ∧ 4 ≤ n ∧ p + n ≤ length rest
       ∧ startsWith (str "https") (drop p rest) = false.
Proof.
  unfold matchAfterPrefix.
  destruct (startsWith (str "https") (drop p rest)) eqn:E; [done|].
  destruct (matchTarget _ _) as [n|] eqn:En; [|done].
  intros [= <-]. exists n. apply matchTarget_bounds in En.
  rewrite length_drop in En. repeat split; lia.
Qed.

Lemma matchMdLink_spec (rest : jsstring) p n :
  matchMdLink rest = Some (p, n) →
  (p = 2 ∨ p = 3) ∧ 4 ≤ n ∧ p + n ≤ length rest
  ∧ startsWith (str "https") (drop p rest) = false.
Proof.
  unfold matchMdLink, orelse. intros H.
  repeat match type of H with
  | context [if ?b then _ else _] => destruct b
  | context [match matchAfterPrefix ?r ?q with _ => _ end] =>
      let E := fresh "E" in
      destruct (matchAfterPrefix r q) eqn:E;
      [apply matchAfterPrefix_spec in E; destruct E as (? & ? & ? & ? & ?)|]
  | context [match drop ?k ?r with _ => _ end] => destruct (drop k r)
  end; simplify_eq; try (apply matchAfterPrefix_spec in H;
    destruct H as (? & ? & ? & ? & ?); simplify_eq); eauto 10.
Qed.

(** A match of [mdRegex] at [i]: a prefix of two or three characters,
    then a target of four or more that does not begin with [https]. *)
Lemma mdMatcher_spec (S : jsstring) i e caps :
  mdMatcher S i = Some (e, caps) →
  ∃ p n, (p = 2 ∨ p = 3) ∧ 4 ≤ n ∧ e = i + p + n ∧ e ≤ length S
         ∧ caps = [take n (drop (i + p) S)]
         ∧ startsWith (str "https") (drop (i + p) S) = false.
Proof.
  unfold mdMatcher. case_decide; [|done].
  destruct (matchMdLink (drop i S)) as [[p n]|] eqn:E; [|done].
  intros [= <- <-]. apply matchMdLink_spec in E.
  destruct E as (Hp & Hn & Hlen & Hs). rewrite length_drop in Hlen.
  rewrite drop_drop in Hs.
  exists p, n. repeat split; auto; lia.
Qed.

Lemma scan_spec R (S : jsstring) li n m :
  RegExp.scan R S li n = Some m →
  li ≤ RegExp.index m
  ∧ RegExp.matcher R S (RegExp.index m)
    = Some (RegExp.endIndex m, RegExp.captures m).
Proof.
  revert li. induction n as [|n IH]; intros li; simpl; [done|].
  destruct (RegExp.matcher R S li) as [[e caps]|] eqn:E.
  - intros [= <-]. simpl. auto.
  - destruct (RegExp.sticky R); [done|]. intros H. apply IH in H.
    destruct H; split; [lia | done].
Qed.

Lemma scan_existsb R (S : jsstring) n : ∀ li,
  RegExp.sticky R = false →
  bool_decide (is_Some (RegExp.scan R S li n))
  = existsb (fun i => bool_decide (is_Some (RegExp.matcher R S i)))
            (seq li n).
Proof.
  induction n as [|n IH]; intros li Hs; simpl; [done|].
  destruct (RegExp.matcher R S li) as [[e caps]|] eqn:E; [done|].
  rewrite Hs. by rewrite IH.
Qed.

(** Without the [g] and [y] flags, [test] looks at the whole string
    and leaves [lastIndex] alone. *)
Lemma test_without_flags R li (S : jsstring) :
  RegExp.usesLastIndex R = false →
  RegExp.test R li S = (RegExp.matchesSomewhere R S, li).
Proof.
  intros Hf. unfold RegExp.test, RegExp.exec, RegExp.matchesSomewhere.
  rewrite Hf, Nat.sub_0_r.
  assert (RegExp.sticky R = false) as Hs.
  { unfold RegExp.usesLastIndex in Hf.
    by apply orb_false_iff in Hf as [_ ?]. }
  rewrite <- (scan_existsb R S _ 0 Hs).
  destruct (RegExp.scan R S 0 _); done.
Qed.

Lemma exec_md_Some (S : jsstring) li m li' :
  RegExp.exec mdRegex li S = (Some m, li') →
  li' = RegExp.endIndex m ∧ li ≤ RegExp.index m
  ∧ mdMatcher S (RegExp.index m)
    = Some (RegExp.endIndex m, RegExp.captures m).
Proof.
  unfold RegExp.exec. simpl.
  destruct (RegExp.scan _ _ _ _) as [m'|] eqn:E; [|done].
  intros [= <- <-]. apply scan_spec in E. simpl in E. tauto.
Qed.

Lemma exec_md_beyond (S : jsstring) li :
  length S < li → RegExp.exec mdRegex li S = (None, 0).
Proof.
  intros H. unfold RegExp.exec. simpl.
  by replace (Datatypes.S (length S) - li) with 0 by lia.
Qed.

Lemma target_not_https (S : jsstring) li m li' :
  RegExp.exec mdRegex li S = (Some m, li') →
  startsWith (str "https") (targetOf m) = false.
Proof.
  intros (_ & _ & Hm)%exec_md_Some.
  apply mdMatcher_spec in Hm as (p & n & _ & _ & _ & _ & Hcaps & Hs).
  unfold targetOf. rewrite Hcaps. cbn [List.nth].
  match goal with |- ?b = false => destruct b eqn:E; [|done] end.
  apply startsWith_take in E. congruence.
Qed.

End pattern_lemmas.

(** ** linkify *)

Section linkify_lemmas.
Context (P : Path.t) (siteDir releasePath : jsstring)
        (releases : list Release.t).

Lemma rewriteTarget_unresolved line mdLink :
  resolves P siteDir releasePath releases mdLink = false →
  rewriteTarget P siteDir releasePath releases line mdLink = line.
Proof.
  unfold resolves, rewriteTarget.
  destruct (findPermalink _ _) as [[|c p]|]; simpl; done.
Qed.

Lemma unresolvedFrom_mono line from from' :
  from ≤ from' →
  unresolvedFrom P siteDir releasePath releases line from →
  unresolvedFrom P siteDir releasePath releases line from'.
Proof. intros Hle H li m li' Hli. apply H. lia. Qed.

Lemma unresolvedFromb_spec line from :
  unresolvedFromb P siteDir releasePath releases line from = true →
  unresolvedFrom P siteDir releasePath releases line from.
Proof.
  unfold unresolvedFromb. rewrite forallb_forall.
  intros H li m li' Hli Hexec.
  destruct (decide (li ≤ length line)) as [Hle|Hgt].
  - specialize (H li). rewrite Hexec in H.
    apply negb_true_iff, H, list_elem_of_In, elem_of_seq. lia.
  - rewrite exec_md_beyond in Hexec by lia. done.
Qed.

(** When nothing resolves the loop ends with the line as it was. *)
Lemma linkifyLoop_unresolved fuel line li :
  unresolvedFrom P siteDir releasePath releases line li →
  length line - li < fuel →
  linkifyLoop P siteDir releasePath releases fuel line li = Some line.
Proof.
  revert li. induction fuel as [|fuel IH]; intros li Hun Hfuel; [lia|].
  simpl. destruct (RegExp.exec mdRegex li line) as [[m|] li'] eqn:E;
    [|done].
  pose proof (Hun li m li' (Nat.le_refl _) E) as Hm.
  fold (targetOf m). rewrite (rewriteTarget_unresolved _ _ Hm).
  apply exec_md_Some in E. destruct E as (-> & Hli & Hmatch).
  apply mdMatcher_spec in Hmatch.
  destruct Hmatch as (p & n & Hp & Hn & He & Hlen & _).
  apply IH; [|lia]. eapply unresolvedFrom_mono; [|done]. lia.
Qed.

Lemma linkifyLoop_rewritten fuel pre target post permalink m lastIndex :
  RegExp.exec mdRegex 0 (pre ++ target ++ post) = (Some m, lastIndex) →
  targetOf m = target →
  indexOf target (pre ++ target ++ post) = Some (length pre) →
  findPermalink releases
    (aliasedPostSourceOf P siteDir releasePath target) = Some permalink →
  permalink ≠ [] →
  chr "$" ∉ permalink →
  unresolvedFrom P siteDir releasePath releases
                 (pre ++ permalink ++ post) lastIndex →
  length (pre ++ permalink ++ post) < fuel →
  linkifyLoop P siteDir releasePath releases fuel (pre ++ target ++ post) 0
  = Some (pre ++ permalink ++ post).
Proof.
  intros Hexec Htarget Hidx Hfind Hne Hplain Hrest Hfuel.
  destruct fuel as [|fuel]; [lia|]. simpl. rewrite Hexec.
  fold (targetOf m). rewrite Htarget. unfold rewriteTarget. rewrite Hfind.
  destruct permalink as [|c p]; [done|].
  rewrite (replace_at _ _ _ _ Hidx), getSubstitution_plain by done.
  apply linkifyLoop_unresolved; [done|].
  apply exec_md_Some in Hexec as (-> & _ & Hm).
  apply mdMatcher_spec in Hm as (q & n & _ & ? & ? & _).
  rewrite !length_app in *. simpl in *. lia.
Qed.

(** The flag of the code is the parity of the fences met. *)
Lemma fenceStep_parity lines :
  foldl fenceStep false lines
  = Nat.odd (length (List.filter isFence lines)).
Proof.
  induction lines as [|l lines IH] using rev_ind; [done|].
  rewrite foldl_app, List.filter_app, length_app. simpl.
  rewrite IH. unfold fenceStep.
  destruct (isFence l); simpl.
  - by rewrite Nat.add_1_r, Nat.odd_succ, <- Nat.negb_odd.
  - by rewrite Nat.add_0_r.
Qed.

Lemma linkifyLines_pointwise fuel lines : ∀ lines' b,
  length lines' = length lines →
  (∀ i line line', lines !! i = Some line → lines' !! i = Some line' →
     if foldl fenceStep b (take (S i) lines) then line' = line
     else linkifyLoop P siteDir releasePath releases fuel line 0
          = Some line') →
  linkifyLines P siteDir releasePath releases fuel b lines = Some lines'.
Proof.
  induction lines as [|l lines IH]; intros lines' b Hlen Hall.
  - by destruct lines'.
  - destruct lines' as [|l' lines']; [done|]. simpl in Hlen.
    pose proof (Hall 0 l l' eq_refl eq_refl) as H0. simpl in H0.
    cbn [linkifyLines]. unfold linkifyLine. fold (fenceStep b l).
    destruct (fenceStep b l) eqn:Eb.
    + subst l'. simpl. rewrite (IH lines' true); [done | lia |].
      intros i line line' Hi Hi'.
      specialize (Hall (S i) line line' Hi Hi').
      simpl in Hall. by rewrite Eb in Hall.
    + rewrite H0. simpl. rewrite (IH lines' false); [done | lia |].
      intros i line line' Hi Hi'.
      specialize (Hall (S i) line line' Hi Hi').
      simpl in Hall. by rewrite Eb in Hall.
Qed.

End linkify_lemmas.

(** ** generateReleases and generateHighlights *)

Section gather_lemmas.
Context {Doc : Type} (h : Host) (releaseDir : jsstring)
        (ctx : LoadContext) (options : PluginOptions)
        (mkDoc : jsstring → jsstring → jsstring → Parsed → bool → Doc).

Lemma producedBy_builtFrom f d :
  producedBy h releaseDir ctx options mkDoc f d →
  builtFrom h releaseDir ctx mkDoc f d.
Proof. intros (s & p & li & Hf & ->). exists s, p. eauto. Qed.

Lemma processFile_ok f li fileString parsed :
  fileParsed h releaseDir f = Some (fileString, parsed) →
  ∃ li',
    processFile h releaseDir ctx options mkDoc f li
    = Ok (if isDraft (frontMatter parsed) && isProduction h then None
          else Some (mkDoc f
                 (aliasedSitePath h
                    (Path.join (pathModule h) releaseDir f) (siteDir ctx))
                 fileString parsed
                 (testTruncated (truncateMarker options) li
                                (content parsed)).1), li').
Proof.
  unfold fileParsed, processFile. intros H.
  destruct (readFile h _) as [s|]; [|done]. simpl in H.
  destruct (parse h s) as [p|]; [|done]. simpl in H. simplify_eq.
  destruct (isDraft _ && isProduction h); [eauto|].
  destruct (testTruncated _ _ _). eauto.
Qed.

Lemma processFile_doc file li d li' :
  processFile h releaseDir ctx options mkDoc file li = Ok (Some d, li') →
  ∃ aliasedSource fileString parsed isTruncated,
    d = mkDoc file aliasedSource fileString parsed isTruncated.
Proof.
  unfold processFile. intros H.
  destruct (readFile h _); [|done]. destruct (parse h _); [|done].
  destruct (isDraft _ && isProduction h); [done|].
  destruct (testTruncated _ _ _). simplify_eq. eauto.
Qed.

Lemma keptFiles_cons f files :
  keptFiles h releaseDir (f :: files)
  = if fileIsDraft h releaseDir f && isProduction h
    then keptFiles h releaseDir files
    else f :: keptFiles h releaseDir files.
Proof.
  unfold keptFiles. destruct (isProduction h); simpl.
  - destruct (fileIsDraft h releaseDir f); simpl; done.
  - by rewrite andb_false_r.
Qed.

(** Once every file reads and parses, the gathering succeeds, with
    one document for each file kept, in the order of completion. *)
Lemma gather_ok files : ∀ li,
  allParsed h releaseDir files →
  ∃ docs li',
    gather (processFile h releaseDir ctx options mkDoc) files li
    = Ok (docs, li')
    ∧ Forall2 (producedBy h releaseDir ctx options mkDoc)
              (keptFiles h releaseDir files) docs.
Proof.
  induction files as [|f files IH]; intros li Hall.
  - exists [], li. split; [done|]. unfold keptFiles.
    destruct (isProduction h); constructor.
  - destruct (Hall f ltac:(left)) as [[s p] Hf].
    destruct (processFile_ok f li s p Hf) as [li1 H1].
    destruct (IH li1 ltac:(intros ? ?; apply Hall; by right))
      as (docs & li2 & H2 & HF).
    cbn [gather]. rewrite H1. simpl. rewrite H2. simpl.
    rewrite keptFiles_cons. unfold fileIsDraft at 1. rewrite Hf.
    destruct (isDraft (frontMatter p) && isProduction h).
    + eauto.
    + eexists _, _. split; [done|]. constructor; [|done].
      exists s, p, li. done.
Qed.

Lemma gather_docs (f : jsstring → nat → result (option Doc * nat))
  files : ∀ li docs li',
  gather f files li = Ok (docs, li') →
  ∀ d, d ∈ docs → ∃ file li0 li1, f file li0 = Ok (Some d, li1).
Proof.
  induction files as [|file files IH]; intros li docs li' H d Hd.
  - simpl in H. simplify_eq. by apply elem_of_nil in Hd.
  - cbn [gather] in H.
    destruct (f file li) as [[doc li1]|] eqn:E1; [|done]. simpl in H.
    destruct (gather f files li1) as [[docs1 li2]|] eqn:E2; [|done].
    simpl in H. simplify_eq.
    destruct doc as [d0|].
    + apply elem_of_cons in Hd as [->|Hd]; [eauto | by eapply IH].
    + by eapply IH.
Qed.

Lemma keptFiles_draft files f :
  f ∈ files → fileIsDraft h releaseDir f = true →
  if isProduction h then f ∉ keptFiles h releaseDir files
  else f ∈ keptFiles h releaseDir files.
Proof.
  intros Hf Hd. unfold keptFiles. destruct (isProduction h); [|done].
  rewrite list_elem_of_In, List.filter_In, Hd. by intros [_ ?].
Qed.

End gather_lemmas.

Section generate_lemmas.
Context (h : Host) (releaseDir : jsstring) (ctx : LoadContext)
        (options : PluginOptions).

Lemma generateReleases_ok li :
  existsSync h releaseDir = true →
  allParsed h releaseDir (releaseFilesOf h releaseDir options) →
  ∃ rs li',
    generateReleases h releaseDir ctx options li = Ok (rs, li')
    ∧ Forall2 (producedBy h releaseDir ctx options
                          (releaseOf h ctx options))
              (keptFiles h releaseDir (releaseFilesOf h releaseDir options))
              rs.
Proof.
  intros He Hall. unfold generateReleases. rewrite He. simpl.
  by apply gather_ok.
Qed.

Lemma generateHighlights_ok li :
  existsSync h releaseDir = true →
  allParsed h releaseDir (highlightFilesOf h releaseDir options) →
  ∃ hs li',
    generateHighlights h releaseDir ctx options li = Ok (hs, li')
    ∧ Forall2 (producedBy h releaseDir ctx options
                          (highlightOf h ctx options))
              (keptFiles h releaseDir
                         (highlightFilesOf h releaseDir options))
              hs.
Proof.
  intros He Hall. unfold generateHighlights. rewrite He. simpl.
  by apply gather_ok.
Qed.

Lemma generateReleases_unlinked li rs li' :
  generateReleases h releaseDir ctx options li = Ok (rs, li') →
  ∀ r, r ∈ rs → unlinked (ORelease r).
Proof.
  unfold generateReleases. destruct (negb _).
  - intros [= <- <-] r Hr. by apply elem_of_nil in Hr.
  - intros H r Hr.
    destruct (gather_docs _ _ _ _ _ H r Hr) as (file & li0 & li1 & Hf).
    apply processFile_doc in Hf as (a & s & p & t & ->). done.
Qed.

Lemma generateHighlights_unlinked li hs li' :
  generateHighlights h releaseDir ctx options li = Ok (hs, li') →
  ∀ r, r ∈ hs → unlinked (OHighlight r).
Proof.
  unfold generateHighlights. destruct (negb _).
  - intros [= <- <-] r Hr. by apply elem_of_nil in Hr.
  - intros H r Hr.
    destruct (gather_docs _ _ _ _ _ H r Hr) as (file & li0 & li1 & Hf).
    apply processFile_doc in Hf as (a & s & p & t & ->). done.
Qed.


End generate_lemmas.

(** ** The store and the sequence linker *)

Section store_lemmas.

Lemma paginatorOf_set_prevItem p o :
  paginatorOf (set_prevItem p o) = paginatorOf o.
Proof. by destruct_obj o. Qed.

Lemma paginatorOf_set_nextItem p o :
  paginatorOf (set_nextItem p o) = paginatorOf o.
Proof. by destruct_obj o. Qed.

Lemma paginatorOf_upd a o : paginatorOf (upd a o) = paginatorOf o.
Proof.
  destruct a as [[p|] [n|]]; unfold upd; simpl;
    by rewrite ?paginatorOf_set_nextItem, ?paginatorOf_set_prevItem.
Qed.

Lemma upd_later a b o : upd a (upd b o) = upd (later a b) o.
Proof.
  destruct a as [[?|] [?|]], b as [[?|] [?|]]; by destruct_obj o.
Qed.

Lemma later_idemp a : later a a = a.
Proof. by destruct a as [[?|] [?|]]. Qed.

Lemma clearLinks_upd a o : clearLinks (upd a o) = clearLinks o.
Proof. destruct a as [[?|] [?|]]; by destruct_obj o. Qed.

Lemma clearLinks_unlinked o : unlinked o → clearLinks o = o.
Proof.
  intros [Hp Hn]. destruct_obj o; simpl in *; by subst.
Qed.

Lemma obj_prevItem_upd a o :
  obj_prevItem (upd a o) = orelse a.1 (obj_prevItem o).
Proof. destruct a as [[?|] [?|]]; by destruct_obj o. Qed.

Lemma obj_nextItem_upd a o :
  obj_nextItem (upd a o) = orelse a.2 (obj_nextItem o).
Proof. destruct a as [[?|] [?|]]; by destruct_obj o. Qed.

Lemma assigned_sameCore items h h' index :
  sameCore h h' → assigned items h index = assigned items h' index.
Proof.
  intros Hc. unfold assigned.
  assert (∀ j, paginatorOf <$> (items !! j ≫= (h !!.))
               = paginatorOf <$> (items !! j ≫= (h' !!.))) as Hj.
  { intros j. destruct (items !! j); simpl; [apply Hc | done]. }
  by rewrite !Hj.
Qed.

Lemma sameCore_upd h h0 (acc : loc → links) :
  (∀ l, h !! l = upd (acc l) <$> h0 !! l) → sameCore h h0.
Proof.
  intros H l. rewrite H. destruct (h0 !! l); simpl; [|done].
  by rewrite paginatorOf_upd.
Qed.

(** One callback: the object at [index] gets what is assigned, the
    others stay. *)
Lemma colocateAt_lookup items h index l :
  colocateAt items h index !! l
  = (if decide (items !! index = Some l)
     then upd (assigned items h index) else id) <$> h !! l.
Proof.
  unfold colocateAt.
  destruct (items !! index) as [release|] eqn:Ei.
  2: { rewrite decide_False by done. by destruct (h !! l). }
  trans ((if decide (release = l)
          then upd (assigned items h index) else id) <$> h !! l);
    [|destruct (decide (release = l)) as [->|Hne];
      [by rewrite decide_True by done
      |by rewrite decide_False by congruence]].
  unfold assigned.
  set (prevItem := if decide (0 < index)
                   then items !! (index - 1) ≫= (h !!.) else None).
  set (h1 := match prevItem with
             | Some p =>
                 alter (set_prevItem (Some (paginatorOf p))) release h
             | None => h
             end).
  assert (∀ j : nat, paginatorOf <$> (items !! j ≫= (h1 !!.))
                     = paginatorOf <$> (items !! j ≫= (h !!.))) as Hsame.
  { intros j. destruct (items !! j) as [l'|]; simpl; [|done].
    unfold h1. destruct prevItem; [|done].
    destruct (decide (release = l')) as [->|Hne].
    - rewrite list_lookup_alter_eq. destruct (h !! l'); simpl; [|done].
      by rewrite paginatorOf_set_prevItem.
    - by rewrite list_lookup_alter_ne. }
  assert (h1 !! l = (if decide (release = l)
                     then upd (paginatorOf <$> prevItem, None) else id)
                    <$> h !! l) as H1.
  { unfold h1. destruct prevItem as [p|]; simpl.
    - case_decide; subst.
      + by rewrite list_lookup_alter_eq.
      + rewrite list_lookup_alter_ne by done. by destruct (h !! l).
    - case_decide; by destruct (h !! l). }
  set (nextItem := if decide (index < length items - 1)
                   then items !! (index + 1) ≫= (h1 !!.) else None).
  assert (paginatorOf <$> nextItem
          = if decide (index < length items - 1)
            then paginatorOf <$> (items !! (index + 1) ≫= (h !!.))
            else None) as Hn.
  { unfold nextItem.
    destruct (decide (index < length items - 1)); [apply Hsame | done]. }
  rewrite <- Hn.
  replace (if decide (0 < index)
           then paginatorOf <$> items !! (index - 1) ≫= (h !!.)
           else None) with (paginatorOf <$> prevItem)
    by (unfold prevItem; by destruct (decide (0 < index))).
  destruct nextItem as [n|]; simpl.
  - destruct (decide (release = l)) as [->|Hne].
    + rewrite list_lookup_alter_eq, H1.
      by destruct (h !! l), prevItem.
    + rewrite list_lookup_alter_ne by done. by rewrite H1.
  - rewrite H1. by destruct (decide (release = l)) as [->|Hne].
Qed.

Lemma foldl_colocateAt_lookup items h0 indexes :
  ∀ h (acc : loc → links),
    (∀ l, h !! l = upd (acc l) <$> h0 !! l) →
    ∀ l, foldl (colocateAt items) h indexes !! l
         = upd (net items h0 l indexes (acc l)) <$> h0 !! l.
Proof.
  induction indexes as [|i indexes IH]; intros h acc Hinv l; [apply Hinv|].
  simpl.
  rewrite (IH (colocateAt items h i)
             (fun l0 => if decide (items !! i = Some l0)
                        then later (assigned items h0 i) (acc l0)
                        else acc l0)); [done|].
  intros l'. rewrite colocateAt_lookup, Hinv.
  rewrite (assigned_sameCore items h h0 i (sameCore_upd _ _ _ Hinv)).
  case_decide; destruct (h0 !! l'); simpl; try done.
  by rewrite upd_later.
Qed.

(** The whole pass, location by location. *)
Lemma colocate_lookup items h l :
  colocate items h !! l
  = upd (net items h l (seq 0 (length items)) (None, None)) <$> h !! l.
Proof.
  unfold colocate.
  apply (foldl_colocateAt_lookup items h _ h (fun _ => (None, None))).
  intros l'. by destruct (h !! l').
Qed.

Lemma colocate_sameCore items h : sameCore (colocate items h) h.
Proof. eapply sameCore_upd. intros l. apply colocate_lookup. Qed.

Lemma net_sameCore items h h' l indexes acc :
  sameCore h h' →
  net items h l indexes acc = net items h' l indexes acc.
Proof.
  intros Hc. revert acc. induction indexes as [|i indexes IH]; intros acc;
    [done|].
  simpl. by rewrite (assigned_sameCore items h h' i Hc), IH.
Qed.

Lemma net_not_in items h l indexes acc :
  (∀ i, i ∈ indexes → items !! i ≠ Some l) →
  net items h l indexes acc = acc.
Proof.
  revert acc. induction indexes as [|i indexes IH]; intros acc Hnot;
    [done|].
  simpl. rewrite decide_False by (apply Hnot; left).
  apply IH. intros j Hj. apply Hnot. by right.
Qed.

Lemma net_NoDup items h i l :
  NoDup items → items !! i = Some l →
  net items h l (seq 0 (length items)) (None, None) = assigned items h i.
Proof.
  intros Hnd Hi. pose proof (lookup_lt_Some _ _ _ Hi) as Hlt.
  replace (length items) with (i + S (length items - S i)) by lia.
  rewrite seq_app. unfold net. rewrite foldl_app. simpl.
  fold (net items h l (seq 0 i) (None, None)).
  rewrite net_not_in.
  2: { intros j Hj%elem_of_seq Hjl.
       pose proof (NoDup_lookup _ _ _ _ Hnd Hi Hjl). lia. }
  rewrite decide_True by done.
  match goal with
  | |- foldl ?f ?a ?ixs = _ =>
      change (foldl f a ixs) with (net items h l ixs a)
  end.
  rewrite net_not_in.
  2: { intros j Hj%elem_of_seq Hjl.
       pose proof (NoDup_lookup _ _ _ _ Hnd Hi Hjl). lia. }
  by destruct (assigned items h i) as [[?|] [?|]].
Qed.

Lemma colocate_length items h : length (colocate items h) = length h.
Proof.
  destruct (decide (length (colocate items h) = length h)) as [|Hne];
    [done|].
  exfalso.
  destruct (decide (length (colocate items h) < length h)) as [Hlt|Hge].
  - pose proof (colocate_lookup items h (length (colocate items h))) as H.
    rewrite (lookup_ge_None_2 (colocate items h)) in H by lia.
    destruct (lookup_lt_is_Some_2 h _ Hlt) as [o Ho].
    by rewrite Ho in H.
  - pose proof (colocate_lookup items h (length h)) as H.
    rewrite (lookup_ge_None_2 h) in H by lia.
    destruct (lookup_lt_is_Some_2 (colocate items h) (length h)
                ltac:(lia)) as [o Ho].
    by rewrite Ho in H.
Qed.

Lemma colocate_unchanged items h l :
  l ∉ items → colocate items h !! l = h !! l.
Proof.
  intros Hl. rewrite colocate_lookup, net_not_in.
  - by destruct (h !! l).
  - intros i _ Hi. apply Hl. by eapply list_elem_of_lookup_2.
Qed.

Lemma colocate_clearLinks items h l o :
  h !! l = Some o →
  ∃ o', colocate items h !! l = Some o' ∧ clearLinks o' = clearLinks o.
Proof.
  intros Ho. rewrite colocate_lookup, Ho. simpl.
  eexists. split; [done|]. apply clearLinks_upd.
Qed.

(** Distinct, unlinked documents come out linked to their
    neighbours. *)
Lemma colocate_linked items h :
  NoDup items →
  (∀ l, l ∈ items → ∃ o, h !! l = Some o ∧ unlinked o) →
  linked (colocate items h) items.
Proof.
  intros Hnd Hfresh i l Hi.
  destruct (Hfresh l (list_elem_of_lookup_2 _ _ _ Hi))
    as (o & Ho & Hp & Hn).
  exists (upd (assigned items h i) o).
  rewrite colocate_lookup, (net_NoDup items h i l Hnd Hi), Ho.
  split; [done|].
  rewrite obj_prevItem_upd, obj_nextItem_upd, Hp, Hn.
  unfold assigned. simpl.
  assert (∀ j l', items !! j = Some l' →
            ∃ o', colocate items h !! l' = Some o'
                  ∧ paginatorOf <$> (items !! j ≫= (h !!.))
                    = Some (paginatorOf o')) as Hnb.
  { intros j l' Hj.
    destruct (Hfresh l' (list_elem_of_lookup_2 _ _ _ Hj))
      as (o' & Ho' & _).
    pose proof (colocate_sameCore items h l') as Hc.
    rewrite Ho' in Hc. rewrite Hj. simpl. rewrite Ho'. simpl.
    destruct (colocate items h !! l') as [o''|]; simpl in Hc; [|done].
    exists o''. split; [done|]. congruence. }
  repeat split.
  - intros ->. by rewrite decide_False by lia.
  - intros l' Hpos Hl'. rewrite decide_True by done.
    destruct (Hnb _ _ Hl') as (o' & Ho' & ->). eauto.
  - intros ->. by rewrite decide_False by lia.
  - intros l' Hl'. pose proof (lookup_lt_Some _ _ _ Hl').
    rewrite decide_True by lia.
    destruct (Hnb _ _ Hl') as (o' & Ho' & ->). eauto.
Qed.

Lemma linked_ext h h' items :
  (∀ l, l ∈ items → h' !! l = h !! l) → linked h items → linked h' items.
Proof.
  intros Hext Hl i l Hi.
  destruct (Hl i l Hi) as (o & Ho & H0 & Hp & Hlast & Hn).
  exists o. rewrite Hext by (by eapply list_elem_of_lookup_2).
  split; [done|]. split; [done|]. split; [|split; [done|]].
  - intros l' Hpos Hl'. destruct (Hp l' Hpos Hl') as (o' & Ho' & ->).
    exists o'. by rewrite Hext by (by eapply list_elem_of_lookup_2).
  - intros l' Hl'. destruct (Hn l' Hl') as (o' & Ho' & ->).
    exists o'. by rewrite Hext by (by eapply list_elem_of_lookup_2).
Qed.

Lemma holds_ext h h' items docs :
  (∀ l, l ∈ items → h' !! l = h !! l) → holds h items docs →
  holds h' items docs.
Proof.
  intros Hext Hh. unfold holds in *.
  induction Hh as [|l d items docs (o & Ho & Hc) _ IH]; constructor.
  - exists o. rewrite Hext by left. done.
  - apply IH. intros l' Hl'. apply Hext. by right.
Qed.

(** Allocating unlinked documents and linking them. *)
Lemma alloc_colocate (h : heap) (docs : list obj) :
  (∀ d, d ∈ docs → unlinked d) →
  let items := (alloc docs h).1 in
  let h' := colocate items (alloc docs h).2 in
  linked h' items ∧ holds h' items docs
  ∧ length h' = length h + length docs
  ∧ (∀ l, l < length h → h' !! l = h !! l).
Proof.
  intros Hun. unfold alloc. simpl.
  set (items := seq (length h) (length docs)).
  assert (∀ k l, items !! k = Some l →
            l = length h + k ∧ (h ++ docs) !! l = docs !! k
            ∧ k < length docs) as Hitems.
  { intros k l Hk. apply lookup_seq in Hk as [-> Hlt].
    split; [done|]. split; [|done].
    rewrite lookup_app_r by lia. f_equal. lia. }
  split; [|split; [|split]].
  - apply colocate_linked; [apply NoDup_seq|].
    intros l [k Hk]%list_elem_of_lookup.
    destruct (Hitems k l Hk) as (-> & Hl & Hlt).
    destruct (lookup_lt_is_Some_2 docs k Hlt) as [d Hd].
    exists d. rewrite Hl. split; [done|].
    apply Hun. by eapply list_elem_of_lookup_2.
  - apply Forall2_same_length_lookup. split.
    { unfold items. by rewrite length_seq. }
    intros k l d Hk Hd. destruct (Hitems k l Hk) as (-> & Hl & Hlt).
    destruct (colocate_clearLinks items (h ++ docs) (length h + k) d)
      as (o' & Ho' & Hc).
    { by rewrite Hl. }
    exists o'. split; [done|]. rewrite Hc.
    apply clearLinks_unlinked, Hun. by eapply list_elem_of_lookup_2.
  - by rewrite colocate_length, length_app.
  - intros l Hl. rewrite colocate_unchanged.
    + by rewrite lookup_app_l.
    + intros [k Hk]%list_elem_of_lookup.
      destruct (Hitems k l Hk) as (-> & _). lia.
Qed.

End store_lemmas.

(** * The claims *)

(** ** The sequence linker *)

(** C1. After [loadContent], in the releases and in the release
    highlights alike, the documents of the collection are the generated
    ones and every document but the first has as [prevItem] the title
    and permalink of the document before it, every document but the
    last has as [nextItem] those of the document after it, the first
    has no [prevItem] and the last no [nextItem]. *)
Theorem loadContent_links h context options st st' :
  loadContent h context options st = Ok st' →
  ∃ rs hs lastIndex1,
    generateReleases h
      (Path.resolve (pathModule h) (siteDir context) (path options))
      context options (markerLastIndex st) = Ok (rs, lastIndex1)
    ∧ generateHighlights h
        (Path.resolve (pathModule h) (siteDir context) (path options))
        context options lastIndex1 = Ok (hs, markerLastIndex st')
    ∧ holds (store st') (releases st') (ORelease <$> rs)
    ∧ holds (store st') (releaseHighlights st') (OHighlight <$> hs)
    ∧ linked (store st') (releases st')
    ∧ linked (store st') (releaseHighlights st').
Proof.
  unfold loadContent. intros H.
  destruct (generateReleases _ _ _ _ _) as [[rs li1]|] eqn:E1; [|done].
  simpl in H.
  destruct (generateHighlights _ _ _ _ _) as [[hs li2]|] eqn:E2; [|done].
  simpl in H. simplify_eq. simpl.
  exists rs, hs, li1. split; [done|]. split; [done|].
  pose proof (alloc_colocate (store st) (ORelease <$> rs)) as A1.
  destruct A1 as (L1 & H1 & Len1 & F1).
  { intros d (r & -> & Hr)%list_elem_of_fmap.
    by eapply generateReleases_unlinked. }
  unfold alloc in *. simpl in *.
  set (items1 := seq (length (store st)) (length (ORelease <$> rs))) in *.
  set (h2 := colocate items1 (store st ++ (ORelease <$> rs))) in *.
  pose proof (alloc_colocate h2 (OHighlight <$> hs)) as A2.
  destruct A2 as (L2 & H2 & Len2 & F2).
  { intros d (r & -> & Hr)%list_elem_of_fmap.
    by eapply generateHighlights_unlinked. }
  unfold alloc in *. simpl in *.
  assert (∀ l, l ∈ items1 →
            colocate (seq (length h2) (length (OHighlight <$> hs)))
                     (h2 ++ (OHighlight <$> hs)) !! l = h2 !! l) as Hext.
  { intros l [Hl1 Hl2]%elem_of_seq. apply F2. lia. }
  repeat split; try done.
  - by eapply holds_ext.
  - by eapply linked_ext.
Qed.

Lemma loadContent_links_witness :
  loadContent (Sample.host Sample.files Sample.development id)
              Sample.context DEFAULT_OPTIONS initialState
  = Ok Sample.loaded
  ∧ releases Sample.loaded = [0; 1; 2]
  ∧ releaseHighlights Sample.loaded = [3; 4]
  ∧ linked (store Sample.loaded) (releases Sample.loaded)
  ∧ linked (store Sample.loaded) (releaseHighlights Sample.loaded).
Proof.
  assert (loadContent (Sample.host Sample.files Sample.development id)
            Sample.context DEFAULT_OPTIONS initialState
          = Ok Sample.loaded) as H by (vm_compute; reflexivity).
  split; [exact H|]. split; [vm_compute; reflexivity|].
  split; [vm_compute; reflexivity|].
  destruct (loadContent_links _ _ _ _ _ H)
    as (rs & hs & li & _ & _ & _ & _ & L1 & L2).
  by split.
Defined.

(** C8, as amended. The sequence linker works in place: it leaves the
    store as long as it was, changes of a document nothing but its
    [prevItem] and [nextItem], and leaves alone every object that is
    not in the collection. *)
Theorem colocate_frame (items : list loc) (h : heap) :
  length (colocate items h) = length h
  ∧ (∀ l o, h !! l = Some o →
       ∃ o', colocate items h !! l = Some o'
             ∧ clearLinks o' = clearLinks o)
  ∧ (∀ l, l ∉ items → colocate items h !! l = h !! l).
Proof.
  split; [apply colocate_length|]. split.
  - intros l o. apply colocate_clearLinks.
  - intros l. apply colocate_unchanged.
Qed.

(** C8, as the specification states it, fails: the first document of
    the array handed to the linker is not what it was. *)
Lemma colocate_mutates_input :
  obj_nextItem <$> Sample.twoDocs !! 0 = Some None
  ∧ obj_nextItem <$> colocate [0; 1] Sample.twoDocs !! 0
    = Some (Some (mkPaginator (str "Release") (str "/releases/v2")))
  ∧ colocate [0; 1] Sample.twoDocs ≠ Sample.twoDocs.
Proof.
  split; [reflexivity|]. split; [vm_compute; reflexivity|].
  vm_compute. discriminate.
Qed.

(** C9. Running the sequence linker on its own output changes nothing:
    the links are those of the first run. *)
Theorem colocate_idempotent (items : list loc) (h : heap) :
  colocate items (colocate items h) = colocate items h.
Proof.
  apply list_eq. intros l.
  rewrite (colocate_lookup items (colocate items h)).
  rewrite (net_sameCore items _ h) by apply colocate_sameCore.
  rewrite colocate_lookup.
  destruct (h !! l); simpl; [|done].
  by rewrite upd_later, later_idemp.
Qed.

(** ** The collections *)

(** C5. When the content directory does not exist, both collections
    are empty and nothing is rejected. *)
Theorem missing_directory h releaseDir ctx options lastIndex :
  existsSync h releaseDir = false →
  generateReleases h releaseDir ctx options lastIndex = Ok ([], lastIndex)
  ∧ generateHighlights h releaseDir ctx options lastIndex
    = Ok ([], lastIndex).
Proof.
  intros H. unfold generateReleases, generateHighlights. by rewrite H.
Qed.

Lemma missing_directory_witness :
  generateReleases (Sample.host Sample.files Sample.production id)
    (str "/site/nowhere") Sample.context DEFAULT_OPTIONS 0 = Ok ([], 0)
  ∧ generateHighlights (Sample.host Sample.files Sample.production id)
      (str "/site/nowhere") Sample.context DEFAULT_OPTIONS 0 = Ok ([], 0).
Proof.
  apply missing_directory. vm_compute. reflexivity.
Defined.

Lemma allParsed_forallb h releaseDir files :
  forallb (fun f => bool_decide (is_Some (fileParsed h releaseDir f))) files
  = true →
  allParsed h releaseDir files.
Proof.
  rewrite forallb_forall. intros H f Hf%list_elem_of_In.
  specialize (H f Hf). by apply bool_decide_eq_true in H.
Qed.

Lemma Forall2_fmap_eq {A B C} (f : A → C) (g : B → C) l k :
  Forall2 (fun a b => g b = f a) l k → g <$> k = f <$> l.
Proof.
  induction 1 as [|a b l k Hab _ IH]; [done|]. cbn [fmap list_fmap].
  by rewrite Hab, IH.
Qed.

(** C4. With every matched file read and parsed, the collection has one
    document for each file kept, built from it, in the order of
    completion; a file marked draft is not kept in production and is
    kept otherwise. *)
Theorem draft_exclusion h releaseDir ctx options lastIndex :
  existsSync h releaseDir = true →
  (allParsed h releaseDir (releaseFilesOf h releaseDir options) →
   ∃ rs lastIndex',
     generateReleases h releaseDir ctx options lastIndex
     = Ok (rs, lastIndex')
     ∧ Forall2 (builtFrom h releaseDir ctx (releaseOf h ctx options))
         (keptFiles h releaseDir (releaseFilesOf h releaseDir options)) rs)
  ∧ (allParsed h releaseDir (highlightFilesOf h releaseDir options) →
     ∃ hs lastIndex',
       generateHighlights h releaseDir ctx options lastIndex
       = Ok (hs, lastIndex')
       ∧ Forall2 (builtFrom h releaseDir ctx (highlightOf h ctx options))
           (keptFiles h releaseDir (highlightFilesOf h releaseDir options))
           hs)
  ∧ (∀ files f, f ∈ files → fileIsDraft h releaseDir f = true →
       if isProduction h then f ∉ keptFiles h releaseDir files
       else f ∈ keptFiles h releaseDir files).
Proof.
  intros He. split; [|split].
  - intros Hall.
    destruct (generateReleases_ok h releaseDir ctx options lastIndex He Hall)
      as (rs & li & Hg & HF).
    exists rs, li. split; [done|].
    eapply List.Forall2_impl; [|exact HF]. apply producedBy_builtFrom.
  - intros Hall.
    destruct (generateHighlights_ok h releaseDir ctx options lastIndex
                He Hall) as (hs & li & Hg & HF).
    exists hs, li. split; [done|].
    eapply List.Forall2_impl; [|exact HF]. apply producedBy_builtFrom.
  - intros files f. apply keptFiles_draft.
Qed.

Lemma draft_exclusion_witness :
  (∃ rs lastIndex',
     generateReleases (Sample.host Sample.files Sample.production id)
       Sample.contentPath Sample.context DEFAULT_OPTIONS 0
     = Ok (rs, lastIndex')
     ∧ Forall2 (builtFrom (Sample.host Sample.files Sample.production id)
                  Sample.contentPath Sample.context
                  (releaseOf (Sample.host Sample.files Sample.production id)
                             Sample.context DEFAULT_OPTIONS))
         [str "v1.md"; str "v3.mdx"] rs)
  ∧ fileIsDraft (Sample.host Sample.files Sample.production id)
                Sample.contentPath (str "v2.md") = true.
Proof.
  split; [|vm_compute; reflexivity].
  apply (draft_exclusion (Sample.host Sample.files Sample.production id)
           Sample.contentPath Sample.context DEFAULT_OPTIONS 0).
  - vm_compute. reflexivity.
  - apply allParsed_forallb. vm_compute. reflexivity.
Defined.

(** C3, as amended. With every matched file read and parsed, the
    permalinks of a collection are those the specification derives
    from the files kept: the base url, the route prefix and the
    front-matter id or else the file name, normalised. So they are
    pairwise distinct exactly when those derived urls are. *)
Theorem permalink_derivation h releaseDir ctx options lastIndex :
  existsSync h releaseDir = true →
  (allParsed h releaseDir (releaseFilesOf h releaseDir options) →
   ∃ rs lastIndex',
     generateReleases h releaseDir ctx options lastIndex
     = Ok (rs, lastIndex')
     ∧ (fun r => Release.permalink (Release.metadata r)) <$> rs
       = permalinkOfFile h releaseDir ctx options
         <$> keptFiles h releaseDir (releaseFilesOf h releaseDir options)
     ∧ (NoDup ((fun r => Release.permalink (Release.metadata r)) <$> rs)
        ↔ NoDup (permalinkOfFile h releaseDir ctx options
                 <$> keptFiles h releaseDir
                       (releaseFilesOf h releaseDir options))))
  ∧ (allParsed h releaseDir (highlightFilesOf h releaseDir options) →
     ∃ hs lastIndex',
       generateHighlights h releaseDir ctx options lastIndex
       = Ok (hs, lastIndex')
       ∧ (fun r => Highlight.permalink (Highlight.metadata r)) <$> hs
         = permalinkOfFile h releaseDir ctx options
           <$> keptFiles h releaseDir
                 (highlightFilesOf h releaseDir options)
       ∧ (NoDup ((fun r => Highlight.permalink (Highlight.metadata r))
                 <$> hs)
          ↔ NoDup (permalinkOfFile h releaseDir ctx options
                   <$> keptFiles h releaseDir
                         (highlightFilesOf h releaseDir options)))).
Proof.
  intros He. split.
  - intros Hall.
    destruct (generateReleases_ok h releaseDir ctx options lastIndex He Hall)
      as (rs & li & Hg & HF).
    exists rs, li. split; [done|].
    assert ((fun r => Release.permalink (Release.metadata r)) <$> rs
            = permalinkOfFile h releaseDir ctx options
              <$> keptFiles h releaseDir
                    (releaseFilesOf h releaseDir options)) as Heq.
    { apply Forall2_fmap_eq. eapply List.Forall2_impl; [|exact HF].
      intros f r (s & p & li0 & Hf & ->). unfold permalinkOfFile.
      by rewrite Hf. }
    split; [done|]. by rewrite Heq.
  - intros Hall.
    destruct (generateHighlights_ok h releaseDir ctx options lastIndex
                He Hall) as (hs & li & Hg & HF).
    exists hs, li. split; [done|].
    assert ((fun r => Highlight.permalink (Highlight.metadata r)) <$> hs
            = permalinkOfFile h releaseDir ctx options
              <$> keptFiles h releaseDir
                    (highlightFilesOf h releaseDir options)) as Heq.
    { apply Forall2_fmap_eq. eapply List.Forall2_impl; [|exact HF].
      intros f r (s & p & li0 & Hf & ->). unfold permalinkOfFile.
      by rewrite Hf. }
    split; [done|]. by rewrite Heq.
Qed.

Lemma permalink_derivation_witness :
  ∃ rs lastIndex',
    generateReleases (Sample.host Sample.files Sample.production id)
      Sample.contentPath Sample.context DEFAULT_OPTIONS 0
    = Ok (rs, lastIndex')
    ∧ (fun r => Release.permalink (Release.metadata r)) <$> rs
      = [str "/releases-new/v1"; str "/releases-new/v3"].
Proof.
  destruct (proj1 (permalink_derivation
                     (Sample.host Sample.files Sample.production id)
                     Sample.contentPath Sample.context DEFAULT_OPTIONS 0
                     ltac:(vm_compute; reflexivity))
              ltac:(apply allParsed_forallb; vm_compute; reflexivity))
    as (rs & li & Hg & Hp & _).
  exists rs, li. split; [exact Hg|]. rewrite Hp. vm_compute. reflexivity.
Defined.

(** C3, as the specification states it, fails: two files with one
    front-matter id give two documents with one permalink. *)
Lemma generateReleases_same_permalink :
  generateReleases (Sample.host Sample.sameIdFiles Sample.production id)
    Sample.contentPath Sample.context DEFAULT_OPTIONS 0
  = Ok (Sample.generated Sample.sameIdFiles DEFAULT_OPTIONS, 0)
  ∧ (fun r => Release.source (Release.metadata r))
    <$> Sample.generated Sample.sameIdFiles DEFAULT_OPTIONS
    = [str "@site/releases/a.md"; str "@site/releases/b.md"]
  ∧ (fun r => Release.permalink (Release.metadata r))
    <$> Sample.generated Sample.sameIdFiles DEFAULT_OPTIONS
    = [str "/releases-new/v1"; str "/releases-new/v1"].
Proof. repeat split; vm_compute; reflexivity. Qed.




(** ** linkify *)

(** C10. With an empty collection, and fuel for the line loops,
    [linkify] returns the text as it is. *)
Theorem linkify_empty_collection P fuel
  (fileContent siteDir releasePath : jsstring) :
  length fileContent < fuel →
  linkify P fuel fileContent siteDir releasePath [] = Some fileContent.
Proof.
  intros Hfuel. unfold linkify.
  rewrite (linkifyLines_pointwise _ _ _ _ _ _ (Js.split 10%N fileContent));
    [simpl; by rewrite join_split | done |].
  intros i line line' Hi Hi'. simplify_eq.
  destruct (foldl _ _ _); [done|].
  apply linkifyLoop_unresolved; [by intros li m li' _ _|].
  apply list_elem_of_lookup_2, split_length_le in Hi. lia.
Qed.

Lemma linkify_empty_collection_witness :
  linkify Sample.P 100 Sample.page Sample.site Sample.contentPath []
  = Some Sample.page.
Proof.
  apply linkify_empty_collection. vm_compute. lia.
Defined.

(** Where the loop does what it is meant to. Line by line: a line is
    returned as it is when an odd number of the lines up to and
    including it start, once trimmed, with three backticks; so is any
    other line none of whose link targets resolves to a document with
    a permalink; and on any other line whose first link target
    resolves, is the first occurrence of its own text in the line and
    has a permalink without [$], that target is replaced by the
    permalink, provided no target found afterwards resolves. When
    every line is of one of these kinds, [linkify] returns the lines
    so obtained, joined. *)
Lemma linkify_lines P fuel (fileContent siteDir releasePath : jsstring)
  (releases : list Release.t) (lines' : list jsstring) :
  length fileContent < fuel →
  length lines' = length (Js.split 10%N fileContent) →
  (∀ i line line',
     Js.split 10%N fileContent !! i = Some line →
     lines' !! i = Some line' →
     lineOutcome P siteDir releasePath releases fuel
                 (Js.split 10%N fileContent) i line line') →
  linkify P fuel fileContent siteDir releasePath releases
  = Some (Js.join 10%N lines').
Proof.
  intros Hfuel Hlen Hall. unfold linkify.
  rewrite (linkifyLines_pointwise _ _ _ _ _ _ lines'); [done | done |].
  intros i line line' Hi Hi'. rewrite fenceStep_parity.
  fold (fencedAfter (Js.split 10%N fileContent) i).
  destruct (Hall i line line' Hi Hi')
    as [Hf | Hf Hun | pre target post permalink m lastIndex Hf -> Hexec
                        Ht Hend Hidx Hfind Hne Hplain Hrest Hfuel'];
    rewrite Hf; [done | |].
  - apply linkifyLoop_unresolved; [done|].
    apply list_elem_of_lookup_2, split_length_le in Hi. lia.
  - by eapply linkifyLoop_rewritten.
Qed.

Lemma linkify_lines_witness :
  linkify Sample.P 200 Sample.page Sample.site Sample.contentPath
          Sample.collection
  = Some (Js.join 10%N Sample.pageLinked).
Proof.
  assert (Js.split 10%N Sample.page
          = [ str "See [v1](" ++ str "./v1.md" ++ str ") and [x](./none.md).";
              str "```"; str "[a](./v1.md)"; str "```";
              str "[ext](https://example.com/a.md)" ]) as Hs
    by (vm_compute; reflexivity).
  apply linkify_lines.
  - vm_compute. lia.
  - rewrite Hs. reflexivity.
  - rewrite Hs. unfold Sample.pageLinked. intros i line line' Hi Hi'.
    destruct i as [|[|[|[|[|i]]]]]; simpl in Hi, Hi'; simplify_eq.
    + apply (Rewritten _ _ _ _ _ _ _ _
               (str "See [v1](") (str "./v1.md")
               (str ") and [x](./none.md).") (str "/releases/v1")
               (RegExp.mkMatch 7 16 [str "./v1.md"]) 16);
        try (vm_compute; reflexivity).
      * vm_compute. discriminate.
      * vm_compute. intros H. apply list_elem_of_In in H. simpl in H.
        repeat destruct H as [H|H]; discriminate || done.
      * apply unresolvedFromb_spec. vm_compute. reflexivity.
      * vm_compute. lia.
    + apply Verbatim. vm_compute. reflexivity.
    + apply Verbatim. vm_compute. reflexivity.
    + apply Untouched; [vm_compute; reflexivity|].
      apply unresolvedFromb_spec. vm_compute. reflexivity.
    + apply Untouched; [vm_compute; reflexivity|].
      apply unresolvedFromb_spec. vm_compute. reflexivity.
Defined.

(** The fence flag is a toggle: a link between two lines of three
    backticks, inside a fence of four, is rewritten. *)
Example linkify_rewrites_in_nested_fence :
  Js.split 10%N Sample.nestedFence
  = [str "````md"; str "```"; str "[a](./v1.md)"; str "```"; str "````"]
  ∧ linkify Sample.P 100 Sample.nestedFence Sample.site Sample.contentPath
            Sample.collection
    = Some (Js.join 10%N
              [str "````md"; str "```"; str "[a](/releases/v1)"; str "```";
               str "````"]).
Proof. split; vm_compute; reflexivity. Qed.

(** C2. The code fails the claim on a line with two links that both
    resolve: the second is left as it is. The collection is what
    [generateReleases] returns for two files, [2020-04-01-first.md]
    with the id [v1] and [v2.md]. After the first target is replaced
    by its permalink, five characters shorter, [exec] goes on from the
    [lastIndex] of the line as it was, which is past the start of the
    second link. Alone on its line the second link is rewritten. *)
Theorem linkify_skips_resolving_link :
  resolves Sample.P Sample.site Sample.contentPath
           (Sample.generated Sample.datedFiles DEFAULT_OPTIONS)
           (str "./v2.md") = true
  ∧ linkify Sample.P 100 (str "[b](./v2.md)")
            Sample.site Sample.contentPath
            (Sample.generated Sample.datedFiles DEFAULT_OPTIONS)
    = Some (str "[b](/releases-new/v2)")
  ∧ linkify Sample.P 100 (str "[a](./2020-04-01-first.md)[b](./v2.md)")
            Sample.site Sample.contentPath
            (Sample.generated Sample.datedFiles DEFAULT_OPTIONS)
    = Some (str "[a](/releases-new/v1)[b](./v2.md)").
Proof. repeat split; vm_compute; reflexivity. Qed.

Lemma findPermalink_snoc releases release aliasedPostSource :
  findPermalink (releases ++ [release]) aliasedPostSource
  = if decide (Release.source (Release.metadata release)
               = aliasedPostSource)
    then Some (Release.permalink (Release.metadata release))
    else findPermalink releases aliasedPostSource.
Proof. unfold findPermalink. by rewrite foldl_app. Qed.

(** C7. The code fails the claim: an external target is changed. The
    collection is what [generateReleases] returns for the sample
    files, with [v1.md] at [/releases-new/v1]. The pattern passes over
    the external link, as its guard [(?!https)] means it to, and
    matches the target [v1.md] of the second link; the text of that
    target is then handed to [String.replace], which replaces its
    first occurrence in the line, and that is the end of the external
    target. The loop finds the second link again and rewrites it as
    well. *)
Theorem linkify_alters_external_target :
  linkify Sample.P 100 (str "[x](https://example.com/v1.md) [a](v1.md)")
          Sample.site Sample.contentPath
          (Sample.generated Sample.files DEFAULT_OPTIONS)
  = Some (str "[x](https://example.com//releases-new/v1) "
          ++ str "[a](/releases-new/v1)").
Proof. vm_compute. reflexivity. Qed.

(** The guard of the pattern is [(?!https)]: a target that begins with
    [http:] is looked up as a relative path is, and replaced when the
    collection has a document at the path it resolves to. *)
Example linkify_rewrites_http_target :
  linkify Sample.P 100 (str "[doc](http://example.com/doc.md)")
          Sample.site Sample.contentPath Sample.collectionWithHttpDir
  = Some (str "[doc](/releases/doc)").
Proof. vm_compute. reflexivity. Qed.

(** * Further properties *)

(** ** The store and the pass over it *)


Section store_more.

Lemma linkPure_length docs : length (linkPure docs) = length docs.
Proof. unfold linkPure. by rewrite length_imap. Qed.

Lemma assigned_fresh (h docs : heap) i :
i < length docs →
assigned (seq (length h) (length docs)) (h ++ docs) i
= (match i with
   | 0 => None
   | S j => paginatorOf <$> docs !! j
   end,
   paginatorOf <$> docs !! (S i)).
Proof.
intros Hi. unfold assigned. rewrite length_seq. f_equal.
- destruct i as [|j]; [done|]. rewrite decide_True by lia.
  replace (S j - 1) with j by lia.
  rewrite lookup_seq_lt by lia. simpl.
  rewrite lookup_app_r by lia. do 2 f_equal. lia.
- destruct (decide (i < length docs - 1)) as [Hlt|Hge].
  + rewrite lookup_seq_lt by lia. simpl.
    rewrite lookup_app_r by lia. do 2 f_equal. lia.
  + by rewrite (lookup_ge_None_2 docs) by lia.
Qed.

Lemma colocate_seq_app (h docs : heap) :
colocate (seq (length h) (length docs)) (h ++ docs) = h ++ linkPure docs.
Proof.
apply list_eq. intros l.
rewrite colocate_lookup.
destruct (decide (l < length h)) as [Hl|Hl].
- rewrite net_not_in.
  + by rewrite !lookup_app_l by done; destruct (h !! l).
  + intros i _ [-> _]%lookup_seq. lia.
- destruct (decide (l - length h < length docs)) as [Hd|Hd].
  + rewrite (net_NoDup _ _ (l - length h) l); [|apply NoDup_seq|].
    2: { rewrite lookup_seq_lt by done. f_equal. lia. }
    rewrite assigned_fresh by done.
    rewrite !lookup_app_r by lia. unfold linkPure.
    rewrite list_lookup_imap. by destruct (docs !! (l - length h)).
  + rewrite (lookup_ge_None_2 (h ++ docs))
      by (rewrite length_app; lia).
    rewrite (lookup_ge_None_2 (h ++ linkPure docs))
      by (rewrite length_app, linkPure_length; lia).
    done.
Qed.

(** X1. On documents just put at the end of the store, as [loadContent]
    does with what the generate functions return, the [forEach] pass
    is a pure map: the store grows by these documents, each with
    [prevItem] and [nextItem] set to the title and permalink of its
    neighbours in the array and, where there is no neighbour, left as
    the document came. *)
Theorem colocate_fresh (h docs : heap) :
colocate (alloc docs h).1 (alloc docs h).2 = h ++ linkPure docs.
Proof. apply colocate_seq_app. Qed.

Lemma loadContent_inv h context options st st' :
loadContent h context options st = Ok st' →
∃ rs hs lastIndex1,
  generateReleases h
    (Path.resolve (pathModule h) (siteDir context) (path options))
    context options (markerLastIndex st) = Ok (rs, lastIndex1)
  ∧ generateHighlights h
      (Path.resolve (pathModule h) (siteDir context) (path options))
      context options lastIndex1 = Ok (hs, markerLastIndex st')
  ∧ store st' = store st ++ linkPure (ORelease <$> rs)
                         ++ linkPure (OHighlight <$> hs)
  ∧ releases st' = seq (length (store st)) (length rs)
  ∧ releaseHighlights st'
    = seq (length (store st) + length rs) (length hs).
Proof.
unfold loadContent. intros H.
destruct (generateReleases _ _ _ _ _) as [[rs li1]|] eqn:E1; [|done].
simpl in H.
destruct (generateHighlights _ _ _ _ _) as [[hs li2]|] eqn:E2; [|done].
simpl in H. simplify_eq. simpl.
exists rs, hs, li1. split; [done|]. split; [done|].
rewrite (colocate_seq_app (store st) (ORelease <$> rs)).
rewrite (colocate_seq_app (store st ++ linkPure (ORelease <$> rs))
                          (OHighlight <$> hs)).
rewrite !length_app, linkPure_length, !length_fmap, <- app_assoc.
done.
Qed.

(** X2. Whenever [loadContent] resolves, both generate functions
    resolved, the highlights after the releases and from the
    [lastIndex] the releases left on the marker; the store is the old
    one followed by the releases and then the highlights, each batch
    linked within itself; the two arrays are the runs of fresh
    locations in that order. Nothing of the old store is changed and
    no link crosses from one batch to the other. *)
Theorem loadContent_store h context options st st' :
loadContent h context options st = Ok st' →
∃ rs hs lastIndex1,
  generateReleases h
    (Path.resolve (pathModule h) (siteDir context) (path options))
    context options (markerLastIndex st) = Ok (rs, lastIndex1)
  ∧ generateHighlights h
      (Path.resolve (pathModule h) (siteDir context) (path options))
      context options lastIndex1 = Ok (hs, markerLastIndex st')
  ∧ store st' = store st ++ linkPure (ORelease <$> rs)
                         ++ linkPure (OHighlight <$> hs)
  ∧ releases st' = seq (length (store st)) (length rs)
  ∧ releaseHighlights st'
    = seq (length (store st) + length rs) (length hs).
Proof. apply loadContent_inv. Qed.

(** X3. On an array of at most one document the pass assigns nothing:
    both conditions of the callback, [index > 0] and
    [index < releases.length - 1], fail. *)
Theorem colocate_short (items : list loc) (h : heap) :
length items ≤ 1 → colocate items h = h.
Proof.
intros Hlen. apply list_eq. intros l. rewrite colocate_lookup.
destruct items as [|l0 [|]]; simpl in Hlen; try lia.
- by destruct (h !! l).
- simpl. unfold assigned. simpl.
  destruct (decide (Some l0 = Some l)); by destruct (h !! l).
Qed.

Lemma colocate_keeps_links (items : list loc) (h : heap) l o :
h !! l = Some o →
∃ o', colocate items h !! l = Some o'
  ∧ (is_Some (obj_prevItem o) → is_Some (obj_prevItem o'))
  ∧ (is_Some (obj_nextItem o) → is_Some (obj_nextItem o')).
Proof.
intros Ho. rewrite colocate_lookup, Ho. simpl. eexists. split; [done|].
rewrite obj_prevItem_upd, obj_nextItem_upd.
destruct (net _ _ _ _ _) as [[?|] [?|]]; simpl; eauto.
Qed.

End store_more.

(** ** Batches and their outcome *)


Section gather_more.
Context {Doc : Type} (h : Host) (releaseDir : jsstring)
        (ctx : LoadContext) (options : PluginOptions)
        (mkDoc : jsstring → jsstring → jsstring → Parsed → bool → Doc).

Lemma processFile_outcome f li :
  match readFile h (Path.join (pathModule h) releaseDir f) with
  | None =>
      processFile h releaseDir ctx options mkDoc f li
      = Rejected (ReadFailure (Path.join (pathModule h) releaseDir f))
  | Some fileString =>
      match parse h fileString with
      | None =>
          processFile h releaseDir ctx options mkDoc f li
          = Rejected (ParseFailure (Path.join (pathModule h) releaseDir f))
      | Some _ =>
          ∃ doc li',
            processFile h releaseDir ctx options mkDoc f li = Ok (doc, li')
      end
  end.
Proof.
  unfold processFile.
  destruct (readFile h _) as [s|]; [|done].
  destruct (parse h s) as [p|]; [|done].
  destruct (isDraft _ && isProduction h); [eauto|].
  destruct (testTruncated _ _ _). eauto.
Qed.

Lemma gather_outcome files : ∀ li,
  match firstFailure h releaseDir files with
  | Some e =>
      gather (processFile h releaseDir ctx options mkDoc) files li
      = Rejected e
  | None =>
      ∃ docs li',
        gather (processFile h releaseDir ctx options mkDoc) files li
        = Ok (docs, li')
  end.
Proof.
  induction files as [|f files IH]; intros li; [simpl; eauto|].
  cbn [gather firstFailure]. pose proof (processFile_outcome f li) as Hf.
  destruct (readFile h _) as [s|]; [|by rewrite Hf].
  destruct (parse h s) as [p|]; [|by rewrite Hf].
  destruct Hf as (doc & li1 & ->). simpl. specialize (IH li1).
  destruct (firstFailure h releaseDir files).
  - by rewrite IH.
  - destruct IH as (docs & li' & ->). simpl. eauto.
Qed.

Lemma gather_flagless files : flagless options → ∀ li li',
  gather (processFile h releaseDir ctx options mkDoc) files li'
  = relabel li'
      (gather (processFile h releaseDir ctx options mkDoc) files li).
Proof.
  intros Hf.
  assert (∀ f x y,
            processFile h releaseDir ctx options mkDoc f y
            = match processFile h releaseDir ctx options mkDoc f x with
              | Ok (doc, x') => Ok (doc, x' + y - x)
              | Rejected e => Rejected e
              end
            ∧ ∀ doc x', processFile h releaseDir ctx options mkDoc f x
                        = Ok (doc, x') → x' = x) as HP.
  { intros f x y. unfold processFile.
    destruct (readFile h _) as [s|]; [|done].
    destruct (parse h s) as [p|]; [|done].
    destruct (isDraft _ && isProduction h).
    { split; [do 2 f_equal; lia | congruence]. }
    assert (∀ z, testTruncated (truncateMarker options) z (content p)
                 = (markerMatches (truncateMarker options) (content p), z))
      as Ht.
    { intros z. unfold testTruncated, markerMatches.
      destruct (truncateMarker options) as [R|] eqn:ER; [|done].
      apply test_without_flags. by apply Hf. }
    rewrite !Ht. split; [do 2 f_equal; lia | congruence]. }
  induction files as [|f files IH]; intros li li'; [done|].
  cbn [gather]. destruct (HP f li li') as [-> Hli].
  destruct (processFile h releaseDir ctx options mkDoc f li)
    as [[doc li1]|] eqn:E; [|done].
  rewrite (Hli _ _ eq_refl). replace (li + li' - li) with li' by lia.
  simpl. rewrite (IH li li').
  by destruct (gather _ files li) as [[? ?]|].
Qed.
End gather_more.

Lemma generateReleases_outcome h releaseDir ctx options lastIndex :
  existsSync h releaseDir = true →
  match firstFailure h releaseDir (releaseFilesOf h releaseDir options) with
  | Some e =>
      generateReleases h releaseDir ctx options lastIndex = Rejected e
  | None =>
      ∃ rs lastIndex',
        generateReleases h releaseDir ctx options lastIndex
        = Ok (rs, lastIndex')
  end.
Proof.
  intros He. unfold generateReleases. rewrite He. simpl.
  apply gather_outcome.
Qed.

Lemma generateHighlights_outcome h releaseDir ctx options lastIndex :
  existsSync h releaseDir = true →
  match firstFailure h releaseDir
          (highlightFilesOf h releaseDir options) with
  | Some e =>
      generateHighlights h releaseDir ctx options lastIndex = Rejected e
  | None =>
      ∃ hs lastIndex',
        generateHighlights h releaseDir ctx options lastIndex
        = Ok (hs, lastIndex')
  end.
Proof.
  intros He. unfold generateHighlights. rewrite He. simpl.
  apply gather_outcome.
Qed.

Lemma firstFailure_None h releaseDir files :
  firstFailure h releaseDir files = None → allParsed h releaseDir files.
Proof.
  induction files as [|f files IH]; intros H f' Hf'.
  - by apply elem_of_nil in Hf'.
  - simpl in H. unfold fileParsed.
    destruct (readFile h (Path.join (pathModule h) releaseDir f))
      as [s|] eqn:Er; [|done].
    destruct (parse h s) as [p|] eqn:Ep; [|done].
    apply elem_of_cons in Hf' as [->|Hf'].
    + rewrite Er. simpl. rewrite Ep. simpl. eauto.
    + by apply IH.
Qed.

Lemma generateReleases_allParsed h options releaseDir ctx li rs li' :
  existsSync h releaseDir = true →
  generateReleases h releaseDir ctx options li = Ok (rs, li') →
  allParsed h releaseDir (releaseFilesOf h releaseDir options).
Proof.
  intros He Hg. apply firstFailure_None.
  pose proof (generateReleases_outcome h releaseDir ctx options li He) as H.
  destruct (firstFailure _ _ _); [congruence | done].
Qed.

Lemma generateHighlights_allParsed h options releaseDir ctx li hs li' :
  existsSync h releaseDir = true →
  generateHighlights h releaseDir ctx options li = Ok (hs, li') →
  allParsed h releaseDir (highlightFilesOf h releaseDir options).
Proof.
  intros He Hg. apply firstFailure_None.
  pose proof (generateHighlights_outcome h releaseDir ctx options li He)
    as H.
  destruct (firstFailure _ _ _); [congruence | done].
Qed.

(** X4. One file that fails loses the whole batch. In an existing
    directory, when some matched file cannot be read or cannot be
    parsed, [generateReleases] and [generateHighlights] are rejected:
    no collection is returned, not even of the other files, and in
    production no less, the draft test coming after the read and the
    parse. *)
Theorem failure_rejects_batch h releaseDir ctx options lastIndex f :
  existsSync h releaseDir = true →
  fileParsed h releaseDir f = None →
  (f ∈ releaseFilesOf h releaseDir options →
   ∃ e, generateReleases h releaseDir ctx options lastIndex = Rejected e)
  ∧ (f ∈ highlightFilesOf h releaseDir options →
     ∃ e, generateHighlights h releaseDir ctx options lastIndex
          = Rejected e).
Proof.
  intros He Hf. split; intros Hin.
  - destruct (generateReleases h releaseDir ctx options lastIndex)
      as [[rs li']|e] eqn:G; [|by exists e].
    destruct (generateReleases_allParsed _ _ _ _ _ _ _ He G f Hin)
      as [x Hx].
    congruence.
  - destruct (generateHighlights h releaseDir ctx options lastIndex)
      as [[hs li']|e] eqn:G; [|by exists e].
    destruct (generateHighlights_allParsed _ _ _ _ _ _ _ He G f Hin)
      as [x Hx].
    congruence.
Qed.

Lemma generateReleases_flagless h releaseDir ctx options
  lastIndex lastIndex' :
  flagless options →
  generateReleases h releaseDir ctx options lastIndex'
  = relabel lastIndex'
      (generateReleases h releaseDir ctx options lastIndex).
Proof.
  intros Hf. unfold generateReleases.
  destruct (negb _); [done|]. by apply gather_flagless.
Qed.

Lemma generateHighlights_flagless h releaseDir ctx options
  lastIndex lastIndex' :
  flagless options →
  generateHighlights h releaseDir ctx options lastIndex'
  = relabel lastIndex'
      (generateHighlights h releaseDir ctx options lastIndex).
Proof.
  intros Hf. unfold generateHighlights.
  destruct (negb _); [done|]. by apply gather_flagless.
Qed.

(** X5. With a marker that has neither the [g] nor the [y] flag (or no
    marker), the [lastIndex] found on the marker has no effect on what
    the generate functions return, the [lastIndex] handed on
    apart. *)
Theorem generate_flagless h releaseDir ctx options lastIndex lastIndex' :
  flagless options →
  generateReleases h releaseDir ctx options lastIndex'
  = relabel lastIndex'
      (generateReleases h releaseDir ctx options lastIndex)
  ∧ generateHighlights h releaseDir ctx options lastIndex'
    = relabel lastIndex'
        (generateHighlights h releaseDir ctx options lastIndex).
Proof.
  intros Hf. split.
  - by apply generateReleases_flagless.
  - by apply generateHighlights_flagless.
Qed.

(** ** File names and truncate *)


Section strip.

Lemma startsWith_app (p s r : jsstring) :
  startsWith p s = true → startsWith p (s ++ r) = true.
Proof.
  rewrite !startsWith_prefix. intros H. etrans; [exact H|].
  by apply prefix_app_r.
Qed.

Lemma startsWith_self_app (p r : jsstring) : startsWith p (p ++ r) = true.
Proof. apply startsWith_prefix. by apply prefix_app_r. Qed.

Lemma endsWith_app (p s : jsstring) : endsWith p (s ++ p) = true.
Proof. unfold endsWith. rewrite rev_app_distr. apply startsWith_self_app. Qed.

Lemma stripMdExt_md (s : jsstring) : stripMdExt (s ++ str ".md") = s.
Proof.
  unfold stripMdExt.
  assert (endsWith (str ".mdx") (s ++ str ".md") = false) as ->.
  { unfold endsWith. rewrite rev_app_distr. done. }
  rewrite endsWith_app, length_app.
  change (length (str ".md")) with 3.
  replace (length s + 3 - 3) with (length s) by lia.
  apply take_app_length.
Qed.

Lemma stripMdExt_mdx (s : jsstring) : stripMdExt (s ++ str ".mdx") = s.
Proof.
  unfold stripMdExt. rewrite endsWith_app, length_app.
  change (length (str ".mdx")) with 4.
  replace (length s + 4 - 4) with (length s) by lia.
  apply take_app_length.
Qed.

(** X7. With no usable front-matter [id], the files [name.md] and
    [name.mdx] get the same permalink, as a release and as a
    highlight: the id is the relative path with [/\.mdx?$/]
    removed. *)
Theorem md_mdx_same_permalink h ctx options (name : jsstring)
  aliased1 aliased2 text1 text2 parsed1 parsed2 truncated1 truncated2 :
  truthy (fm_id (frontMatter parsed1)) = false →
  truthy (fm_id (frontMatter parsed2)) = false →
  Release.permalink (Release.metadata
    (releaseOf h ctx options (name ++ str ".md") aliased1 text1 parsed1
               truncated1))
  = Release.permalink (Release.metadata
      (releaseOf h ctx options (name ++ str ".mdx") aliased2 text2 parsed2
                 truncated2))
  ∧ Highlight.permalink (Highlight.metadata
      (highlightOf h ctx options (name ++ str ".md") aliased1 text1 parsed1
                   truncated1))
    = Highlight.permalink (Highlight.metadata
        (highlightOf h ctx options (name ++ str ".mdx") aliased2 text2
                     parsed2 truncated2)).
Proof.
  intros H1 H2. unfold releaseOf, highlightOf. simpl.
  rewrite stripMdExt_md, stripMdExt_mdx.
  destruct (fm_id (frontMatter parsed1)) as [[|? ?]|],
           (fm_id (frontMatter parsed2)) as [[|? ?]|]; done.
Qed.
End strip.

Section truncate_lemmas.
Context (R : RegExp.t).

Lemma splitHead_cases (S : jsstring) n : ∀ q,
  q + n = length S →
  (splitHead R S q n = S
   ∧ ∀ j e caps, q ≤ j < length S →
       RegExp.matcher R S j = Some (e, caps) → Nat.min e (length S) = 0)
  ∨ (∃ k e caps, q ≤ k < length S
       ∧ splitHead R S q n = take k S
       ∧ RegExp.matcher R S k = Some (e, caps)
       ∧ Nat.min e (length S) ≠ 0
       ∧ ∀ j e' caps', q ≤ j < k →
           RegExp.matcher R S j = Some (e', caps') →
           Nat.min e' (length S) = 0).
Proof.
  induction n as [|n IH]; intros q Hq.
  - left. split; [done|]. intros; lia.
  - simpl. destruct (RegExp.matcher R S q) as [[e caps]|] eqn:E.
    + case_decide as He.
      * destruct (IH (Datatypes.S q) ltac:(lia))
          as [[Hs Hno]|(k & e' & caps' & Hk & Hs & Hm & Hne & Hno)].
        -- left. split; [done|]. intros j e1 c1 Hj Hj'.
           destruct (decide (j = q)) as [->|]; [by simplify_eq|].
           eapply Hno; [|done]. lia.
        -- right. exists k, e', caps'. repeat split; try done; try lia.
           intros j e1 c1 Hj Hj'.
           destruct (decide (j = q)) as [->|]; [by simplify_eq|].
           eapply Hno; [|done]. lia.
      * right. exists q, e, caps. repeat split; try done; try lia.
    + destruct (IH (Datatypes.S q) ltac:(lia))
        as [[Hs Hno]|(k & e' & caps' & Hk & Hs & Hm & Hne & Hno)].
      * left. split; [done|]. intros j e1 c1 Hj Hj'.
        destruct (decide (j = q)) as [->|]; [by simplify_eq|].
        eapply Hno; [|done]. lia.
      * right. exists k, e', caps'. repeat split; try done; try lia.
        intros j e1 c1 Hj Hj'.
        destruct (decide (j = q)) as [->|]; [by simplify_eq|].
        eapply Hno; [|done]. lia.
Qed.

Lemma matchesSomewhere_false (S : jsstring) :
  RegExp.matchesSomewhere R S = false ↔
  ∀ i, i ≤ length S → RegExp.matcher R S i = None.
Proof.
  unfold RegExp.matchesSomewhere. split.
  - intros H i Hi. destruct (RegExp.matcher R S i) eqn:E; [|done].
    exfalso. apply not_true_iff_false in H. apply H.
    apply existsb_exists. exists i. split.
    + apply list_elem_of_In, elem_of_seq. lia.
    + rewrite E. apply bool_decide_eq_true. eauto.
  - intros H. apply not_true_iff_false. intros Hex.
    apply existsb_exists in Hex as (i & Hi%list_elem_of_In & Hm).
    apply elem_of_seq in Hi. rewrite H in Hm by lia. done.
Qed.

Lemma truncate_nonempty (S : jsstring) :
  S ≠ [] → truncate S R = Some (splitHead R S 0 (length S)).
Proof. by destruct S. Qed.

Lemma truncate_cases (fileString : jsstring) :
  (∀ t, truncate fileString R = Some t → t `prefix_of` fileString)
  ∧ (RegExp.matchesSomewhere R fileString = false →
     truncate fileString R = Some fileString).
Proof.
  destruct (decide (fileString = [])) as [->|Hne].
  - split.
    + intros t. simpl. destruct (RegExp.matcher R [] 0); intros;
        by simplify_eq.
    + intros Hno. rewrite matchesSomewhere_false in Hno.
      simpl. by rewrite Hno by (simpl; lia).
  - rewrite truncate_nonempty by done.
    destruct (splitHead_cases fileString (length fileString) 0 eq_refl)
      as [[Hs _]|(k & e & caps & Hk & Hs & Hm & _)]; rewrite Hs.
    + split; [by intros t [= <-] | done].
    + split; [intros t [= <-]; apply prefix_take|].
      intros Hno. rewrite matchesSomewhere_false in Hno.
      rewrite Hno in Hm by lia. done.
Qed.

(** X8. [truncate] returns a prefix of the file, and the file itself
    when the marker matches nowhere in it, for every marker. *)
Theorem truncate_prefix (fileString : jsstring) :
  (∀ t, truncate fileString R = Some t → t `prefix_of` fileString)
  ∧ (RegExp.matchesSomewhere R fileString = false →
     truncate fileString R = Some fileString).
Proof. apply truncate_cases. Qed.

Lemma truncate_proper (fileString : jsstring) :
  properMatches R →
  ∃ t, truncate fileString R = Some t
    ∧ length t ≤ length fileString
    ∧ (t = fileString ↔ RegExp.matchesSomewhere R fileString = false).
Proof.
  intros Hp. destruct (decide (fileString = [])) as [->|Hne].
  - simpl. destruct (RegExp.matcher R [] 0) as [[e caps]|] eqn:E.
    + apply Hp in E. simpl in E. lia.
    + exists []. split; [done|]. split; [done|]. split; [|done].
      intros _. apply matchesSomewhere_false. intros i Hi.
      simpl in Hi. by replace i with 0 by lia.
  - rewrite truncate_nonempty by done. eexists. split; [done|].
    destruct (splitHead_cases fileString (length fileString) 0 eq_refl)
      as [[Hs Hno]|(k & e & caps & Hk & Hs & Hm & Hne' & Hno)];
      rewrite Hs.
    + split; [done|]. split; [|done]. intros _.
      apply matchesSomewhere_false. intros i Hi.
      destruct (RegExp.matcher R fileString i) as [[e caps]|] eqn:E;
        [|done].
      pose proof (Hp _ _ _ _ E) as He.
      destruct (decide (i < length fileString)) as [Hlt|Hge]; [|lia].
      specialize (Hno i e caps ltac:(lia) E). lia.
    + rewrite length_take. split; [lia|]. split.
      * intros Heq. apply (f_equal length) in Heq.
        rewrite length_take in Heq. lia.
      * intros Hnone. rewrite matchesSomewhere_false in Hnone.
        rewrite Hnone in Hm by lia. done.
Qed.
End truncate_lemmas.

Section default_marker.

Lemma spanLength_le p (s : jsstring) : spanLength p s ≤ length s.
Proof. induction s as [|c s IH]; simpl; [done|]. destruct (p c); lia. Qed.

Lemma spanLength_app p (s r : jsstring) :
  spanLength p s < length s → spanLength p (s ++ r) = spanLength p s.
Proof.
  induction s as [|c s IH]; simpl; [lia|].
  destruct (p c); [|done]. intros H. rewrite IH; [done|lia].
Qed.

Lemma truncateMatcher_bounds (S : jsstring) i e caps :
  truncateMatcher S i = Some (e, caps) → i < e ≤ length S.
Proof.
  unfold truncateMatcher. case_decide as Hi; [|done].
  destruct (startsWith (str "<!--") (drop i S)) eqn:E1; [|done].
  destruct (startsWith (str "truncate") _) eqn:E2; [|done].
  destruct (startsWith (str "-->") _) eqn:E3; [|done].
  intros [= <- <-].
  apply startsWith_length in E3. rewrite !length_drop in E3.
  change (length (str "-->")) with 3 in E3. lia.
Qed.

Lemma properMatches_default : properMatches defaultTruncateMarker.
Proof. intros S i e caps. apply truncateMatcher_bounds. Qed.

Lemma truncateMatcher_app (t rest : jsstring) i e caps :
  truncateMatcher t i = Some (e, caps) →
  truncateMatcher (t ++ rest) i = Some (e, caps).
Proof.
  unfold truncateMatcher. case_decide as Hi; [|done].
  rewrite decide_True by (rewrite length_app; lia).
  rewrite (drop_app_le t rest i) by done.
  set (s0 := drop i t).
  destruct (startsWith (str "<!--") s0) eqn:E1; [|done].
  rewrite (startsWith_app _ _ rest E1).
  pose proof (startsWith_length _ _ E1) as L1.
  change (length (str "<!--")) with 4 in L1.
  rewrite (drop_app_le s0 rest 4) by done.
  set (s1 := drop 4 s0).
  destruct (startsWith (str "truncate") (drop (spanLength isWhiteSpace s1) s1))
    eqn:E2; [|done].
  pose proof (startsWith_length _ _ E2) as L2.
  rewrite length_drop in L2. change (length (str "truncate")) with 8 in L2.
  rewrite (spanLength_app _ s1 rest) by lia.
  rewrite (drop_app_le s1 rest) by apply spanLength_le.
  set (s2 := drop (spanLength isWhiteSpace s1) s1) in *.
  rewrite (startsWith_app _ _ rest E2).
  rewrite (drop_app_le s2 rest 8)
    by (unfold s2; rewrite length_drop; lia).
  set (s3 := drop 8 s2).
  destruct (startsWith (str "-->") (drop (spanLength isWhiteSpace s3) s3))
    eqn:E3; [|done].
  pose proof (startsWith_length _ _ E3) as L3.
  rewrite length_drop in L3. change (length (str "-->")) with 3 in L3.
  rewrite (spanLength_app _ s3 rest) by lia.
  rewrite (drop_app_le s3 rest) by apply spanLength_le.
  by rewrite (startsWith_app _ _ rest E3).
Qed.

(** X9. With the default marker [truncate] always returns a text: a
    prefix of the file in which the marker no longer occurs, and one
    shorter than the file exactly when the [truncated] flag the
    generate functions compute for that text is set. *)
Theorem truncate_default (fileString : jsstring) lastIndex :
  ∃ t, truncate fileString defaultTruncateMarker = Some t
    ∧ t `prefix_of` fileString
    ∧ RegExp.matchesSomewhere defaultTruncateMarker t = false
    ∧ ((testTruncated (truncateMarker DEFAULT_OPTIONS) lastIndex
                      fileString).1 = true
       ↔ t ≠ fileString).
Proof.
  destruct (truncate_proper defaultTruncateMarker fileString
              properMatches_default) as (t & Ht & Hlen & Hiff).
  exists t. split; [done|].
  pose proof (proj1 (truncate_cases defaultTruncateMarker fileString) t Ht)
    as Hpre.
  split; [done|]. split.
  - destruct (decide (t = fileString)) as [->|Hne]; [by apply Hiff|].
    destruct (decide (fileString = [])) as [->|Hnil].
    { simpl in Ht. simplify_eq. }
    rewrite truncate_nonempty in Ht by done.
    destruct (splitHead_cases defaultTruncateMarker fileString
                (length fileString) 0 eq_refl)
      as [[Hs _]|(k & e & caps & Hk & Hs & Hm & _ & Hno)];
      rewrite Hs in Ht; simplify_eq.
    apply matchesSomewhere_false. intros i Hi.
    destruct (RegExp.matcher defaultTruncateMarker (take k fileString) i)
      as [[e' caps']|] eqn:E; [|done].
    exfalso. simpl in E.
    pose proof (truncateMatcher_bounds _ _ _ _ E) as Hb.
    rewrite length_take in Hb.
    apply (truncateMatcher_app _ (drop k fileString)) in E.
    rewrite take_drop in E.
    specialize (Hno i e' caps' ltac:(lia) E). lia.
  - change (truncateMarker DEFAULT_OPTIONS)
      with (Some defaultTruncateMarker).
    unfold testTruncated. rewrite test_without_flags by done. simpl.
    split.
    + intros Hm Heq. apply Hiff in Heq. congruence.
    + intros Hne. destruct (RegExp.matchesSomewhere _ _) eqn:E; [done|].
      exfalso. by apply Hne, Hiff.
Qed.
End default_marker.

(** ** More on linkify *)


Section linkify_more.
Context (P : Path.t) (siteDir releasePath : jsstring)
        (releases : list Release.t).

Lemma mdMatcher_bracket (S : jsstring) i e caps :
  mdMatcher S i = Some (e, caps) → S !! i = Some (chr "]").
Proof.
  unfold mdMatcher. case_decide; [|done].
  destruct (matchMdLink (drop i S)) as [[p n]|] eqn:E; [|done].
  intros _. unfold matchMdLink, orelse in E.
  assert (startsWith [chr "]"] (drop i S) = true) as Hb.
  { destruct (startsWith (str "](") (drop i S)) eqn:E1.
    - apply startsWith_prefix in E1. apply startsWith_prefix.
      etrans; [|exact E1]. by exists [chr "("].
    - destruct (startsWith (str "]:") (drop i S)) eqn:E2; [|done].
      apply startsWith_prefix in E2. apply startsWith_prefix.
      etrans; [|exact E2]. by exists [chr ":"]. }
  apply startsWith_prefix in Hb as [r Hr].
  rewrite <- (take_drop i S), Hr.
  rewrite lookup_app_r by (rewrite length_take; lia).
  rewrite length_take. by replace (i - i `min` length S) with 0 by lia.
Qed.

Lemma exec_md_no_bracket (line : jsstring) li :
  chr "]" ∉ line → RegExp.exec mdRegex li line = (None, 0).
Proof.
  intros Hno. destruct (RegExp.exec mdRegex li line) as [[m|] li'] eqn:E.
  - apply exec_md_Some in E as (_ & _ & Hm).
    apply mdMatcher_bracket in Hm. exfalso. apply Hno.
    by eapply list_elem_of_lookup_2.
  - unfold RegExp.exec in E. simpl in E.
    destruct (RegExp.scan _ _ _ _); by simplify_eq.
Qed.

Lemma split_elem sep (s : jsstring) line c :
  line ∈ Js.split sep s → c ∈ line → c ∈ s.
Proof.
  revert line. induction s as [|d s IH]; intros line; simpl.
  - intros ->%list_elem_of_singleton. done.
  - pose proof (split_nonempty sep s) as Hne.
    destruct (Js.split sep s) as [|l ls] eqn:Es; [done|].
    destruct (ch_eqb d sep).
    + intros [->|H]%elem_of_cons Hc; [by apply elem_of_nil in Hc|].
      right. by eapply IH.
    + intros [->|H]%elem_of_cons Hc.
      * apply elem_of_cons in Hc as [->|Hc]; [left|].
        right. eapply IH; [left|done].
      * right. eapply IH; [by right|done].
Qed.

(** X11. A text without a closing square bracket is returned as it is,
    whatever the collection holds: every match of the pattern starts
    at such a bracket. *)
Theorem linkify_no_bracket fuel (fileContent : jsstring) :
  0 < fuel → chr "]" ∉ fileContent →
  linkify P fuel fileContent siteDir releasePath releases
  = Some fileContent.
Proof.
  intros Hfuel Hno. unfold linkify.
  rewrite (linkifyLines_pointwise _ _ _ _ _ _ (Js.split 10%N fileContent));
    [simpl; by rewrite join_split | done |].
  intros i line line' Hi Hi'. simplify_eq.
  destruct (foldl _ _ _); [done|].
  destruct fuel as [|fuel]; [lia|]. simpl.
  rewrite exec_md_no_bracket; [done|].
  intros Hc. apply Hno. eapply split_elem; [|done].
  by eapply list_elem_of_lookup_2.
Qed.

End linkify_more.

Section target_lemmas.

Lemma spanLength_Forall p (s : jsstring) k :
  k ≤ spanLength p s → Forall (fun c => p c = true) (take k s).
Proof.
  revert k. induction s as [|c s IH]; intros k Hk; simpl in *.
  - by rewrite take_nil.
  - destruct k as [|k]; [constructor|]. simpl.
    destruct (p c) eqn:E; [|lia]. constructor; [done|]. apply IH. lia.
Qed.

Lemma matchTarget_split (s : jsstring) k0 n :
  matchTarget s k0 = Some n →
  ∃ k e, 1 ≤ k ≤ k0 ∧ n = k + e ∧ matchMdExt (drop k s) = Some e.
Proof.
  induction k0 as [|k0 IH]; simpl; [done|].
  destruct (matchMdExt (drop (S k0) s)) as [e|] eqn:E.
  - intros [= <-]. exists (S k0), e. repeat split; lia || done.
  - intros H. destruct (IH H) as (k & e & Hk & -> & He).
    exists k, e. repeat split; lia || done.
Qed.

Lemma matchMdExt_take (s : jsstring) e :
  matchMdExt s = Some e →
  (take e s = str ".md" ∨ take e s = str ".mdx").
Proof.
  unfold matchMdExt.
  destruct (startsWith (str ".mdx") s) eqn:E1.
  - intros [= <-]. right. apply startsWith_prefix in E1 as [r ->].
    by rewrite (take_app_length' (str ".mdx")).
  - destruct (startsWith (str ".md") s) eqn:E2; [|done].
    intros [= <-]. left. apply startsWith_prefix in E2 as [r ->].
    by rewrite (take_app_length' (str ".md")).
Qed.

(** X12. Every match of the link pattern starts at a closing square
    bracket, and its target, the first group, has none of the
    characters the class excludes and is a non-empty stem followed by
    [.md] or [.mdx]. *)
Theorem target_shape (S : jsstring) li m li' :
  RegExp.exec mdRegex li S = (Some m, li') →
  S !! RegExp.index m = Some (chr "]")
  ∧ Forall (fun c => isTargetChar c = true) (targetOf m)
  ∧ (∃ stem, stem ≠ []
       ∧ (targetOf m = stem ++ str ".md"
          ∨ targetOf m = stem ++ str ".mdx")).
Proof.
  intros (_ & _ & Hm)%exec_md_Some.
  split; [by eapply mdMatcher_bracket|].
  unfold mdMatcher in Hm. case_decide; [|done].
  destruct (matchMdLink (drop (RegExp.index m) S)) as [[p n]|] eqn:E;
    [|done].
  injection Hm as _ Hcaps. unfold targetOf. rewrite <- Hcaps.
  cbn [List.nth].
  assert (matchAfterPrefix (drop (RegExp.index m) S) p = Some (p, n))
    as Ha.
  { unfold matchMdLink, orelse in E.
    repeat match type of E with
    | context [if ?b then _ else _] => destruct b
    | context [match matchAfterPrefix ?r ?q with _ => _ end] =>
        let E' := fresh "E" in
        destruct (matchAfterPrefix r q) as [[? ?]|] eqn:E'
    | context [match drop ?k ?r with _ => _ end] => destruct (drop k r)
    end; simplify_eq; try done;
    match goal with
    | H : matchAfterPrefix _ ?q = Some (_, _) |- _ =>
        let H' := fresh in
        pose proof H as H';
        apply matchAfterPrefix_spec in H' as (? & ? & _); by simplify_eq
    end. }
  unfold matchAfterPrefix in Ha. rewrite drop_drop in Ha.
  set (s := drop (RegExp.index m + p) S) in *.
  destruct (startsWith (str "https") s); [done|].
  destruct (matchTarget s (spanLength isTargetChar s)) as [n'|] eqn:Et;
    [|done].
  simpl in Ha. simplify_eq.
  apply matchTarget_split in Et as (k & e & Hk & -> & He).
  assert (take (k + e) s = take k s ++ take e (drop k s)) as ->.
  { rewrite <- (take_drop k s) at 1.
    rewrite take_app_add'; [done|].
    rewrite length_take.
    pose proof (spanLength_le isTargetChar s). lia. }
  pose proof (spanLength_Forall isTargetChar s k ltac:(lia)) as Hk'.
  split.
  - apply Forall_app. split; [done|].
    destruct (matchMdExt_take _ _ He) as [-> | ->];
      repeat constructor.
  - exists (take k s). split.
    + intros Hnil. apply (f_equal length) in Hnil.
      rewrite length_take in Hnil.
      pose proof (spanLength_le isTargetChar s). simpl in Hnil. lia.
    + destruct (matchMdExt_take _ _ He) as [-> | ->]; auto.
Qed.
End target_lemmas.

Section findPermalink_spec.

Lemma findPermalink_spec (releases : list Release.t)
  (aliasedPostSource : jsstring) :
  match findPermalink releases aliasedPostSource with
  | Some permalink =>
      ∃ before release after,
        releases = before ++ release :: after
        ∧ Release.source (Release.metadata release) = aliasedPostSource
        ∧ Release.permalink (Release.metadata release) = permalink
        ∧ ∀ r, r ∈ after →
            Release.source (Release.metadata r) ≠ aliasedPostSource
  | None =>
      ∀ r, r ∈ releases →
        Release.source (Release.metadata r) ≠ aliasedPostSource
  end.
Proof.
  induction releases as [|r releases IH] using rev_ind.
  - simpl. intros r Hr. by apply elem_of_nil in Hr.
  - rewrite findPermalink_snoc. case_decide as Hs.
    + exists releases, r, []. repeat split; try done.
      intros r' Hr'. by apply elem_of_nil in Hr'.
    + destruct (findPermalink releases aliasedPostSource) as [p|].
      * destruct IH as (before & r0 & after & -> & Hs0 & Hp & Hafter).
        exists before, r0, (after ++ [r]).
        rewrite <- app_assoc. repeat split; try done.
        intros r' [Hr'|Hr']%elem_of_app; [by apply Hafter|].
        apply list_elem_of_singleton in Hr'. by subst.
      * intros r' [Hr'|Hr']%elem_of_app; [by apply IH|].
        apply list_elem_of_singleton in Hr'. by subst.
Qed.

(** X13. The lookup of [linkify] is a loop over the whole collection
    that keeps overwriting [permalink]: when several documents have
    the source looked for, the permalink of the last one is taken; the
    result is none exactly when no document has that source. *)
Theorem findPermalink_last (releases : list Release.t)
  (aliasedPostSource : jsstring) :
  match findPermalink releases aliasedPostSource with
  | Some permalink =>
      ∃ before release after,
        releases = before ++ release :: after
        ∧ Release.source (Release.metadata release) = aliasedPostSource
        ∧ Release.permalink (Release.metadata release) = permalink
        ∧ ∀ r, r ∈ after →
            Release.source (Release.metadata r) ≠ aliasedPostSource
  | None =>
      ∀ r, r ∈ releases →
        Release.source (Release.metadata r) ≠ aliasedPostSource
  end.
Proof. exact (findPermalink_spec releases aliasedPostSource). Qed.
End findPermalink_spec.


Section divergence.

Lemma scan_first R (S : jsstring) k e caps : ∀ n li,
  li ≤ k → k - li < n →
  (∀ j, li ≤ j < k → RegExp.matcher R S j = None) →
  RegExp.sticky R = false →
  RegExp.matcher R S k = Some (e, caps) →
  RegExp.scan R S li n = Some (RegExp.mkMatch k e caps).
Proof.
  induction n as [|n IH]; intros li Hle Hn Hno Hs Hk; [lia|].
  simpl. destruct (decide (li = k)) as [->|Hne].
  - by rewrite Hk.
  - rewrite Hno by lia. rewrite Hs. apply IH; try done; try lia.
    intros j Hj. apply Hno. lia.
Qed.

Lemma mdMatcher_not_bracket (S : jsstring) i :
  S !! i ≠ Some (chr "]") → mdMatcher S i = None.
Proof.
  intros H. destruct (mdMatcher S i) as [[e caps]|] eqn:E; [|done].
  by apply mdMatcher_bracket in E.
Qed.

Lemma exec_md_tail (pre : jsstring) li :
  li ≤ length pre → chr "]" ∉ drop li pre →
  RegExp.exec mdRegex li (pre ++ str "](a.md)")
  = (Some (RegExp.mkMatch (length pre) (length pre + 6) [str "a.md"]),
     length pre + 6).
Proof.
  intros Hli Hno. unfold RegExp.exec. simpl.
  rewrite (scan_first mdRegex _ (length pre) (length pre + 6)
             [str "a.md"]); try done.
  - rewrite length_app. change (length (str "](a.md)")) with 7. lia.
  - intros j Hj. apply mdMatcher_not_bracket.
    rewrite lookup_app_l by lia. intros Hj'. apply Hno.
    apply list_elem_of_lookup. exists (j - li).
    rewrite lookup_drop. by replace (li + (j - li)) with j by lia.
  - simpl. unfold mdMatcher.
    rewrite decide_True by (rewrite length_app; lia).
    rewrite drop_app_length.
    change (matchMdLink (str "](a.md)")) with (Some (2, 4)).
    cbv beta iota.
    rewrite <- drop_drop, drop_app_length.
    change (take 4 (drop 2 (str "](a.md)"))) with (str "a.md").
    by replace (length pre + 2 + 4) with (length pre + 6) by lia.
Qed.

Lemma indexOf_skip (c : char) (pat pre s : jsstring) :
  c ∉ pre →
  indexOf (c :: pat) (pre ++ s)
  = (fun k => length pre + k) <$> indexOf (c :: pat) s.
Proof.
  induction pre as [|d pre IH]; intros Hno.
  - simpl. by destruct (indexOf (c :: pat) s).
  - apply not_elem_of_cons in Hno as [Hd Hno].
    cbn [app indexOf startsWith].
    assert (ch_eqb c d = false) as ->.
    { unfold ch_eqb. by apply N.eqb_neq. }
    simpl. rewrite IH by done.
    by destruct (indexOf (c :: pat) s).
Qed.

Lemma linkifyLoop_diverges n fuel : 4 ≤ n → ∀ (pre : jsstring) li,
  li ≤ length pre → chr "]" ∉ drop li pre → chr "a" ∉ pre →
  linkifyLoop Sample.P Sample.site Sample.contentPath
              (Sample.loopingCollection n) fuel (pre ++ str "](a.md)") li
  = None.
Proof.
  intros Hn. induction fuel as [|fuel IH]; intros pre li Hli Hno Ha;
    [done|].
  cbn [linkifyLoop]. rewrite exec_md_tail by done. cbn [RegExp.captures
    List.nth].
  assert (rewriteTarget Sample.P Sample.site Sample.contentPath
            (Sample.loopingCollection n) (pre ++ str "](a.md)") (str "a.md")
          = (pre ++ str "](" ++ replicate n (chr "x")) ++ str "](a.md)")
    as ->.
  { unfold rewriteTarget.
    change (aliasedPostSourceOf Sample.P Sample.site Sample.contentPath
              (str "a.md")) with (str "@site/releases/a.md").
    unfold Sample.loopingCollection, findPermalink. cbn [foldl Release.source
      Release.permalink Release.metadata].
    rewrite decide_True by done.
    destruct n as [|n]; [lia|]. cbn [replicate app].
    change (pre ++ str "](a.md)")
      with (pre ++ str "](" ++ str "a.md" ++ str ")").
    rewrite (app_assoc pre (str "](")).
    rewrite replace_at.
    2: { change (str "a.md") with (chr "a" :: str ".md").
         rewrite indexOf_skip.
         - simpl. f_equal. lia.
         - intros [H|H]%elem_of_app; [done|].
           vm_compute in H. apply list_elem_of_In in H. simpl in H.
           repeat destruct H as [H|H]; done. }
    rewrite getSubstitution_plain.
    2: { change (chr "x" :: replicate n (chr "x") ++ str "](a.md")
           with (replicate (S n) (chr "x") ++ str "](a.md").
         intros [H|H]%elem_of_app.
         - by apply elem_of_replicate in H as [H _].
         - apply list_elem_of_In in H. simpl in H.
           repeat destruct H as [H|H]; done. }
    rewrite <- !app_assoc. do 2 f_equal. cbn [app]. f_equal.
    by rewrite <- app_assoc. }
  apply IH.
  - rewrite !length_app, length_replicate.
    change (length (str "](")) with 2. lia.
  - rewrite !drop_app. change (length (str "](")) with 2.
    rewrite (drop_ge pre) by lia.
    rewrite (drop_ge (str "]("))
      by (change (length (str "](")) with 2; lia).
    cbn [app]. intros H%subseteq_drop.
    by apply elem_of_replicate in H as [H _].
  - intros [H|[H|H]%elem_of_app]%elem_of_app; [done| |].
    + apply list_elem_of_In in H. simpl in H.
      repeat destruct H as [H|H]; done.
    + by apply elem_of_replicate in H as [H _].
Qed.

(** X14. The [while] loop of [linkify] need not end. [lastIndex] is
    kept over the replacement, so with a permalink that itself ends in
    a link to the same file, after at least four other characters,
    every call of [exec] finds the link again in the text just
    inserted: no number of calls is enough. *)
Theorem linkify_can_diverge n fuel :
  4 ≤ n →
  linkify Sample.P fuel (str "](a.md)") Sample.site Sample.contentPath
          (Sample.loopingCollection n) = None.
Proof.
  intros Hn. unfold linkify.
  change (Js.split 10%N (str "](a.md)")) with [str "](a.md)"].
  cbn [linkifyLines]. unfold linkifyLine.
  change (isFence (str "](a.md)")) with false. cbn iota.
  pose proof (linkifyLoop_diverges n fuel Hn [] 0 (Nat.le_refl 0)
                (not_elem_of_nil _) (not_elem_of_nil _)) as H.
  cbn [app] in H. by rewrite H.
Qed.
End divergence.

(** ** Documents, links and routes *)


Section sources.
Context {Doc : Type} (h : Host) (releaseDir : jsstring)
        (ctx : LoadContext) (options : PluginOptions)
        (mkDoc : jsstring → jsstring → jsstring → Parsed → bool → Doc).

Lemma gather_docs_from files : ∀ li docs li',
  gather (processFile h releaseDir ctx options mkDoc) files li
  = Ok (docs, li') →
  ∀ d, d ∈ docs →
    ∃ f, f ∈ files ∧ builtFrom h releaseDir ctx mkDoc f d.
Proof.
  induction files as [|f files IH]; intros li docs li' H d Hd.
  - simpl in H. simplify_eq. by apply elem_of_nil in Hd.
  - cbn [gather] in H.
    destruct (processFile h releaseDir ctx options mkDoc f li)
      as [[doc li1]|] eqn:E1; [|done]. simpl in H.
    destruct (gather _ files li1) as [[docs1 li2]|] eqn:E2; [|done].
    simpl in H. simplify_eq.
    assert (∀ d0, doc = Some d0 →
              builtFrom h releaseDir ctx mkDoc f d0) as Hb.
    { intros d0 ->. unfold processFile in E1. unfold builtFrom, fileParsed.
      destruct (readFile h _) as [s|] eqn:Er; [|done].
      destruct (parse h s) as [p|] eqn:Ep; [|done].
      destruct (isDraft _ && isProduction h); [done|].
      destruct (testTruncated _ _ _) as [t ?]. simplify_eq.
      exists s, p, t. simpl. by rewrite Ep. }
    destruct doc as [d0|].
    + apply elem_of_cons in Hd as [->|Hd].
      * exists f. split; [left | by apply Hb].
      * destruct (IH _ _ _ E2 d Hd) as (f' & Hf' & Hb').
        exists f'. split; [by right | done].
    + destruct (IH _ _ _ E2 d Hd) as (f' & Hf' & Hb').
      exists f'. split; [by right | done].
Qed.
End sources.

Section composition.
Context (h : Host) (releaseDir : jsstring) (ctx : LoadContext)
        (options : PluginOptions).

(** X15. [generateReleases] and [linkify] agree on sources. When the
    site alias is [@site/] followed by the path relative to the site,
    which is how [linkify] spells it, a link that resolves to a file
    kept by [generateReleases] is found in the collection generated,
    with the permalink of a document built from that file. *)
Theorem generated_document_resolves lastIndex releasePath mdLink f :
  existsSync h releaseDir = true →
  allParsed h releaseDir (releaseFilesOf h releaseDir options) →
  f ∈ keptFiles h releaseDir (releaseFilesOf h releaseDir options) →
  (∀ p, aliasedSitePath h p (siteDir ctx)
        = str "@site/" ++ Path.relative (pathModule h) (siteDir ctx) p) →
  Path.resolve (pathModule h) releasePath mdLink
  = Path.join (pathModule h) releaseDir f →
  ∃ rs lastIndex' r,
    generateReleases h releaseDir ctx options lastIndex
    = Ok (rs, lastIndex')
    ∧ r ∈ rs
    ∧ Release.source (Release.metadata r)
      = aliasedSitePath h (Path.join (pathModule h) releaseDir f)
                        (siteDir ctx)
    ∧ findPermalink rs
        (aliasedPostSourceOf (pathModule h) (siteDir ctx) releasePath
                             mdLink)
      = Some (Release.permalink (Release.metadata r)).
Proof.
  intros He Hall Hf Halias Hres.
  destruct (generateReleases_ok h releaseDir ctx options lastIndex He Hall)
    as (rs & li & Hg & HF).
  exists rs, li.
  apply list_elem_of_lookup in Hf as [i Hi].
  destruct (Forall2_lookup_l _ _ _ _ _ HF Hi)
    as (r0 & Hr0 & s & p & li0 & Hfp & Hr0eq).
  assert (Release.source (Release.metadata r0)
          = aliasedSitePath h (Path.join (pathModule h) releaseDir f)
                            (siteDir ctx)) as Hsrc by (by subst r0).
  assert (aliasedPostSourceOf (pathModule h) (siteDir ctx) releasePath
                              mdLink
          = aliasedSitePath h (Path.join (pathModule h) releaseDir f)
                            (siteDir ctx)) as Hal.
  { unfold aliasedPostSourceOf. by rewrite Hres, Halias. }
  rewrite Hal.
  pose proof (findPermalink_spec rs
                (aliasedSitePath h (Path.join (pathModule h) releaseDir f)
                                 (siteDir ctx))) as Hlast.
  destruct (findPermalink rs _) as [permalink|].
  - destruct Hlast as (before & r & after & -> & Hs & Hp & _).
    exists r. split; [done|]. split; [|by rewrite Hp].
    apply elem_of_app. right. left.
  - exfalso. eapply Hlast; [|exact Hsrc].
    by eapply list_elem_of_lookup_2.
Qed.
End composition.

Section content_loaded.
Context (h : Host) (B : Build) (context : LoadContext)
        (options : PluginOptions).

Lemma obj_source_upd a o : obj_source (upd a o) = obj_source o.
Proof. destruct a as [[?|] [?|]]; by destruct_obj o. Qed.

Lemma obj_permalink_upd a o : obj_permalink (upd a o) = obj_permalink o.
Proof. destruct a as [[?|] [?|]]; by destruct_obj o. Qed.

Lemma linkPure_lookup docs i :
  ∃ a, linkPure docs !! i = upd a <$> docs !! i.
Proof. unfold linkPure. rewrite list_lookup_imap. eauto. Qed.

Lemma createData_elem name data store releases highlights :
  CreateData name data
  ∈ contentLoaded h B context options store (Some (releases, highlights)) →
  ∃ l o, (l ∈ releases ∨ l ∈ highlights) ∧ store !! l = Some o
         ∧ name = dataName B o ∧ data = stringify B o.
Proof.
  unfold contentLoaded. rewrite !elem_of_app.
  intros [H|[H|[H|[H|[H|H]]]]].
  - apply list_elem_of_singleton in H. done.
  - apply list_elem_of_fmap in H as (o & Heq & Ho).
    apply list_elem_of_omap in Ho as (l & Hl & Hlo).
    unfold createDataOf in Heq. simplify_eq. eauto 10.
  - apply list_elem_of_bind in H as (o & Ha & _).
    unfold releaseRoutes in Ha.
    apply elem_of_cons in Ha as [Ha|Ha]; [done|].
    apply list_elem_of_singleton in Ha. done.
  - apply list_elem_of_singleton in H. done.
  - apply list_elem_of_fmap in H as (o & Heq & Ho).
    apply list_elem_of_omap in Ho as (l & Hl & Hlo).
    unfold createDataOf in Heq. simplify_eq. eauto 10.
  - apply list_elem_of_fmap in H as (o & Heq & _). done.
Qed.
End content_loaded.

Section data_sync.
Context (h : Host) (B : Build) (context : LoadContext)
        (options : PluginOptions).

Lemma loaded_sources st st' l o :
  loadContent h context options st = Ok st' →
  (l ∈ releases st' ∨ l ∈ releaseHighlights st') →
  store st' !! l = Some o →
  ∃ f, (f ∈ releaseFilesOf h (contentPathOf h context options) options
        ∨ f ∈ highlightFilesOf h (contentPathOf h context options) options)
       ∧ obj_source o
         = aliasedSitePath h
             (Path.join (pathModule h) (contentPathOf h context options) f)
             (siteDir context).
Proof.
  intros Hl Hin Ho.
  destruct (loadContent_inv _ _ _ _ _ Hl)
    as (rs & hs & li1 & G1 & G2 & Hs & Hr & Hh).
  fold (contentPathOf h context options) in G1, G2.
  rewrite Hs in Ho. rewrite Hr, Hh in Hin.
  destruct Hin as [[Hl1 Hl2]%elem_of_seq|[Hl1 Hl2]%elem_of_seq].
  - rewrite lookup_app_r in Ho by lia.
    rewrite lookup_app_l in Ho
      by (rewrite linkPure_length, length_fmap; lia).
    destruct (linkPure_lookup (ORelease <$> rs) (l - length (store st)))
      as [a Ha].
    rewrite Ha, list_lookup_fmap in Ho.
    destruct (rs !! (l - length (store st))) as [r|] eqn:Er; [|done].
    simpl in Ho. simplify_eq. rewrite obj_source_upd. simpl.
    unfold generateReleases in G1.
    destruct (negb _); [simplify_eq; by rewrite lookup_nil in Er|].
    destruct (gather_docs_from _ _ _ _ _ _ _ _ _ G1 r
                ltac:(by eapply list_elem_of_lookup_2))
      as (f & Hf & s & p & t & Hfp & ->).
    exists f. split; [by left | done].
  - rewrite lookup_app_r in Ho by lia.
    rewrite lookup_app_r in Ho
      by (rewrite linkPure_length, length_fmap; lia).
    rewrite linkPure_length, length_fmap in Ho.
    destruct (linkPure_lookup (OHighlight <$> hs)
                (l - length (store st) - length rs)) as [a Ha].
    rewrite Ha, list_lookup_fmap in Ho.
    destruct (hs !! (l - length (store st) - length rs)) as [r|] eqn:Er;
      [|done].
    simpl in Ho. simplify_eq. rewrite obj_source_upd. simpl.
    unfold generateHighlights in G2.
    destruct (negb _); [simplify_eq; by rewrite lookup_nil in Er|].
    destruct (gather_docs_from _ _ _ _ _ _ _ _ _ G2 r
                ltac:(by eapply list_elem_of_lookup_2))
      as (f & Hf & s & p & t & Hfp & ->).
    exists f. split; [by right | done].
Qed.

(** X16. The names [contentLoaded] gives to [createData] and the path
    [metadataPath] computes for the loader agree, as the comments in
    both places ask: on the content [loadContent] left, every name
    given, joined to [dataDir], is the metadata path of a matched
    source file, and every release file kept has its data created
    under the name its metadata path ends with. *)
Theorem data_in_sync st st' :
  loadContent h context options st = Ok st' →
  (∀ name data,
     CreateData name data ∈ loadedActions h B context options st' →
     ∃ f, (f ∈ releaseFilesOf h (contentPathOf h context options) options
           ∨ f ∈ highlightFilesOf h (contentPathOf h context options)
                                  options)
          ∧ Path.join (pathModule h) (dataDirOf h context) name
            = metadataPath h B context
                (Path.join (pathModule h)
                           (contentPathOf h context options) f))
  ∧ (existsSync h (contentPathOf h context options) = true →
     ∀ f, f ∈ keptFiles h (contentPathOf h context options)
                (releaseFilesOf h (contentPathOf h context options)
                                options) →
       ∃ name data,
         CreateData name data ∈ loadedActions h B context options st'
         ∧ Path.join (pathModule h) (dataDirOf h context) name
           = metadataPath h B context
               (Path.join (pathModule h)
                          (contentPathOf h context options) f)).
Proof.
  intros Hl. split.
  - intros name data Hc.
    apply createData_elem in Hc as (l & o & Hin & Ho & -> & _).
    destruct (loaded_sources _ _ _ _ Hl Hin Ho) as (f & Hf & Hsrc).
    exists f. split; [done|]. unfold metadataPath, dataName.
    by rewrite Hsrc.
  - intros He f Hf.
    destruct (loadContent_inv _ _ _ _ _ Hl)
      as (rs & hs & li1 & G1 & G2 & Hs & Hr & Hh).
    fold (contentPathOf h context options) in G1, G2.
    pose proof (generateReleases_allParsed h options _ _ _ _ _ He G1)
      as Hall.
    destruct (generateReleases_ok h _ context options (markerLastIndex st)
                He Hall) as (rs' & li' & G1' & HF).
    rewrite G1 in G1'. simplify_eq.
    apply list_elem_of_lookup in Hf as [i Hi].
    destruct (Forall2_lookup_l _ _ _ _ _ HF Hi)
      as (r & Hr0 & s & p & li0 & Hfp & Hreq).
    pose proof (lookup_lt_Some _ _ _ Hr0) as Hlt.
    destruct (linkPure_lookup (ORelease <$> rs') i) as [a Ha].
    rewrite list_lookup_fmap, Hr0 in Ha. simpl in Ha.
    exists (dataName B (upd a (ORelease r))),
           (stringify B (upd a (ORelease r))).
    split.
    + unfold loadedActions, contentLoaded. rewrite !elem_of_app.
      right. left. apply list_elem_of_fmap.
      exists (upd a (ORelease r)). split; [done|].
      apply list_elem_of_omap. exists (length (store st) + i). split.
      * rewrite Hr. apply elem_of_seq. lia.
      * rewrite Hs, lookup_app_r by lia.
        rewrite lookup_app_l
          by (rewrite linkPure_length, length_fmap; lia).
        by replace (length (store st) + i - length (store st)) with i
          by lia.
    + unfold metadataPath, dataName. rewrite obj_source_upd. simpl.
      by subst r.
Qed.
End data_sync.

Section routes.
Context (h : Host) (B : Build) (context : LoadContext)
        (options : PluginOptions).

Lemma contentLoadedTs_routes comp store releases highlights route :
  AddRoute route
  ∈ contentLoadedTs h B context options comp store
      (Some (releases, highlights))
  ↔ AddRoute route
    ∈ contentLoaded h B context options store (Some (releases, highlights))
    ∨ route = highlightsListRoute h context options comp store highlights.
Proof.
  unfold contentLoadedTs, contentLoaded. rewrite !elem_of_app.
  rewrite !list_elem_of_singleton. split.
  - intros [H|[H|[H|[H|[H|H]]]]]; [tauto..|].
    right. congruence.
  - intros [[H|[H|[H|[H|[H|H]]]]]|H]; [tauto.. | done | tauto | tauto |].
    do 5 right. by rewrite H.
Qed.

(** X17. Whatever the order in which the calls of [createData]
    complete, [contentLoaded] adds both routes of every release and
    the route of every highlight in the store, in the compiled
    index.js and in the TypeScript source alike. In the compiled file
    every route added is the list page or one of these; the
    TypeScript source adds the same routes and one more, the
    highlights list page. *)
Theorem contentLoaded_routes (store : heap) (releases highlights : list loc)
  (releaseHighlightsListComponent : jsstring) :
  (∀ items, dataOrder B items ≡ₚ items) →
  (∀ l o a, l ∈ releases → store !! l = Some o →
     a ∈ releaseRoutes h options o →
     a ∈ contentLoaded h B context options store
           (Some (releases, highlights))
     ∧ a ∈ contentLoadedTs h B context options
             releaseHighlightsListComponent store
             (Some (releases, highlights)))
  ∧ (∀ l o, l ∈ highlights → store !! l = Some o →
       highlightRoute options o
       ∈ contentLoaded h B context options store
           (Some (releases, highlights))
       ∧ highlightRoute options o
         ∈ contentLoadedTs h B context options
             releaseHighlightsListComponent store
             (Some (releases, highlights)))
  ∧ (∀ route,
       AddRoute route
       ∈ contentLoaded h B context options store
           (Some (releases, highlights)) →
       route_modules route
       = ItemsModule (obj_source <$> omap (store !!.) releases)
       ∨ (∃ l o, l ∈ releases ∧ store !! l = Some o
            ∧ AddRoute route ∈ releaseRoutes h options o)
       ∨ (∃ l o, l ∈ highlights ∧ store !! l = Some o
            ∧ AddRoute route = highlightRoute options o))
  ∧ (∀ route,
       AddRoute route
       ∈ contentLoadedTs h B context options
           releaseHighlightsListComponent store
           (Some (releases, highlights))
       ↔ AddRoute route
         ∈ contentLoaded h B context options store
             (Some (releases, highlights))
         ∨ route = highlightsListRoute h context options
                     releaseHighlightsListComponent store highlights).
Proof.
  intros Hperm.
  assert (∀ l o a, l ∈ releases → store !! l = Some o →
            a ∈ releaseRoutes h options o →
            a ∈ contentLoaded h B context options store
                  (Some (releases, highlights))) as Hr.
  { intros l o a Hl Ho Ha. unfold contentLoaded.
    rewrite !elem_of_app. right. right. left.
    apply list_elem_of_bind. exists o. split; [done|].
    apply list_elem_of_omap. exists l. split; [|done].
    by rewrite Hperm. }
  assert (∀ l o, l ∈ highlights → store !! l = Some o →
            highlightRoute options o
            ∈ contentLoaded h B context options store
                (Some (releases, highlights))) as Hh.
  { intros l o Hl Ho. unfold contentLoaded.
    rewrite !elem_of_app. do 5 right.
    apply list_elem_of_fmap. exists o. split; [done|].
    apply list_elem_of_omap. exists l. split; [|done].
    by rewrite Hperm. }
  split; [|split; [|split]].
  - intros l o a Hl Ho Ha. split; [by eapply Hr|].
    pose proof (Hr l o a Hl Ho Ha) as Hin.
    unfold releaseRoutes in Ha.
    apply elem_of_cons in Ha as [->|Ha];
      [|apply list_elem_of_singleton in Ha as ->];
      apply contentLoadedTs_routes; by left.
  - intros l o Hl Ho. split; [by eapply Hh|].
    apply contentLoadedTs_routes. left. by eapply Hh.
  - intros route. unfold contentLoaded. rewrite !elem_of_app.
    intros [H|[H|[H|[H|[H|H]]]]].
    + apply list_elem_of_singleton in H. simplify_eq. by left.
    + apply list_elem_of_fmap in H as (o & Heq & _). done.
    + apply list_elem_of_bind in H as (o & Ha & Ho).
      apply list_elem_of_omap in Ho as (l & Hl & Hlo).
      rewrite Hperm in Hl. right. left. eauto.
    + apply list_elem_of_singleton in H. done.
    + apply list_elem_of_fmap in H as (o & Heq & _). done.
    + apply list_elem_of_fmap in H as (o & Heq & Ho).
      apply list_elem_of_omap in Ho as (l & Hl & Hlo).
      rewrite Hperm in Hl. right. right. eauto.
  - intros route. apply contentLoadedTs_routes.
Qed.
End routes.

(** X18. The pass never clears a link. On an array without repeated
    documents the first document keeps the [prevItem] it came with and
    the last its [nextItem], and no document anywhere loses a link it
    had. *)
Theorem colocate_stale_links (items : list loc) (h : heap) :
  NoDup items →
  (∀ l o, items !! 0 = Some l → h !! l = Some o →
     obj_prevItem <$> colocate items h !! l = Some (obj_prevItem o))
  ∧ (∀ l o, items !! (length items - 1) = Some l → h !! l = Some o →
       obj_nextItem <$> colocate items h !! l = Some (obj_nextItem o))
  ∧ (∀ l o, h !! l = Some o →
       ∃ o', colocate items h !! l = Some o'
         ∧ (is_Some (obj_prevItem o) → is_Some (obj_prevItem o'))
         ∧ (is_Some (obj_nextItem o) → is_Some (obj_nextItem o'))).
Proof.
  intros Hnd. split; [|split].
  - intros l o Hl Ho.
    rewrite colocate_lookup, (net_NoDup items h 0 l Hnd Hl), Ho. simpl.
    by rewrite obj_prevItem_upd.
  - intros l o Hl Ho.
    rewrite colocate_lookup, (net_NoDup items h _ l Hnd Hl), Ho. simpl.
    rewrite obj_nextItem_upd. unfold assigned. simpl.
    by rewrite decide_False by lia.
  - intros l o. apply colocate_keeps_links.
Qed.

(** ** On the sample site *)

Lemma flagless_default : flagless DEFAULT_OPTIONS.
Proof. intros R [= <-]. reflexivity. Qed.

Lemma loadContent_sample :
  loadContent (Sample.host Sample.files Sample.development id)
              Sample.context DEFAULT_OPTIONS initialState
  = Ok Sample.loaded.
Proof. vm_compute. reflexivity. Qed.

Lemma loadContent_store_witness :
  ∃ rs hs lastIndex1,
    generateReleases (Sample.host Sample.files Sample.development id)
      Sample.contentPath Sample.context DEFAULT_OPTIONS 0
    = Ok (rs, lastIndex1)
    ∧ generateHighlights (Sample.host Sample.files Sample.development id)
        Sample.contentPath Sample.context DEFAULT_OPTIONS lastIndex1
      = Ok (hs, markerLastIndex Sample.loaded)
    ∧ store Sample.loaded
      = linkPure (ORelease <$> rs) ++ linkPure (OHighlight <$> hs)
    ∧ releases Sample.loaded = seq 0 (length rs)
    ∧ releaseHighlights Sample.loaded = seq (length rs) (length hs).
Proof.
  exact (loadContent_store
           (Sample.host Sample.files Sample.development id)
           Sample.context DEFAULT_OPTIONS initialState Sample.loaded
           loadContent_sample).
Defined.

Lemma colocate_short_witness :
  colocate [1] Sample.twoDocs = Sample.twoDocs.
Proof. apply (colocate_short [1] Sample.twoDocs). simpl. lia. Defined.

Lemma colocate_stale_links_witness :
  obj_prevItem <$> colocate [0; 1] Sample.staleDocs !! 0
  = Some (Some (mkPaginator (str "Old") (str "/old"))).
Proof.
  apply (proj1 (colocate_stale_links [0; 1] Sample.staleDocs
                  (NoDup_seq 0 2))
               0 _ eq_refl eq_refl).
Defined.

Lemma failure_rejects_batch_witness :
  ∃ e, generateReleases Sample.brokenHost Sample.contentPath
         Sample.context DEFAULT_OPTIONS 0 = Rejected e.
Proof.
  apply (proj1 (failure_rejects_batch Sample.brokenHost Sample.contentPath
                  Sample.context DEFAULT_OPTIONS 0 (str "v2.md")
                  eq_refl eq_refl)).
  apply list_elem_of_In. vm_compute. right. left. reflexivity.
Defined.

Lemma generate_flagless_witness :
  generateReleases (Sample.host Sample.files Sample.production id)
                   Sample.contentPath Sample.context DEFAULT_OPTIONS 5
  = relabel 5
      (generateReleases (Sample.host Sample.files Sample.production id)
                        Sample.contentPath Sample.context DEFAULT_OPTIONS 0).
Proof.
  apply (proj1 (generate_flagless
                  (Sample.host Sample.files Sample.production id)
                  Sample.contentPath Sample.context DEFAULT_OPTIONS 0 5
                  flagless_default)).
Defined.

Lemma md_mdx_same_permalink_witness :
  Release.permalink (Release.metadata
    (releaseOf (Sample.host Sample.files Sample.production id)
       Sample.context DEFAULT_OPTIONS (str "a" ++ str ".md")
       (str "@site/releases/a.md") (str "one")
       (mkParsed Sample.noFrontMatter (str "One.") None) false))
  = Release.permalink (Release.metadata
      (releaseOf (Sample.host Sample.files Sample.production id)
         Sample.context DEFAULT_OPTIONS (str "a" ++ str ".mdx")
         (str "@site/releases/a.mdx") (str "two")
         (mkParsed Sample.noFrontMatter (str "Two.") None) true)).
Proof.
  apply (proj1 (md_mdx_same_permalink
                  (Sample.host Sample.files Sample.production id)
                  Sample.context DEFAULT_OPTIONS (str "a")
                  (str "@site/releases/a.md") (str "@site/releases/a.mdx")
                  (str "one") (str "two")
                  (mkParsed Sample.noFrontMatter (str "One.") None)
                  (mkParsed Sample.noFrontMatter (str "Two.") None)
                  false true eq_refl eq_refl)).
Defined.

Lemma truncate_prefix_witness :
  truncate (str "No marker here.") defaultTruncateMarker
  = Some (str "No marker here.").
Proof.
  apply (proj2 (truncate_prefix defaultTruncateMarker
                  (str "No marker here."))).
  vm_compute. reflexivity.
Defined.

Lemma linkify_no_bracket_witness :
  linkify Sample.P 1 (str "plain text (no links)") Sample.site
          Sample.contentPath Sample.collection
  = Some (str "plain text (no links)").
Proof.
  apply (linkify_no_bracket Sample.P Sample.site Sample.contentPath
           Sample.collection 1 (str "plain text (no links)")).
  - lia.
  - intros H%list_elem_of_In. vm_compute in H.
    repeat (destruct H as [H | H]; [discriminate H |]). exact H.
Defined.

Lemma target_shape_witness :
  ∃ stem, stem ≠ []
    ∧ (str "./v1.md" = stem ++ str ".md"
       ∨ str "./v1.md" = stem ++ str ".mdx").
Proof.
  apply (proj2 (proj2 (target_shape (str "See [v1](./v1.md).") 0
           (RegExp.mkMatch 7 16 [str "./v1.md"])
           16 eq_refl))).
Defined.

Lemma linkify_can_diverge_witness :
  linkify Sample.P 1000 (str "](a.md)") Sample.site Sample.contentPath
          (Sample.loopingCollection 4) = None.
Proof. apply (linkify_can_diverge 4 1000). lia. Defined.

Lemma generated_document_resolves_witness :
  ∃ rs lastIndex' r,
    generateReleases (Sample.host Sample.files Sample.production id)
      Sample.contentPath Sample.context DEFAULT_OPTIONS 0
    = Ok (rs, lastIndex')
    ∧ r ∈ rs
    ∧ Release.source (Release.metadata r) = str "@site/releases/v1.md"
    ∧ findPermalink rs
        (aliasedPostSourceOf Sample.P Sample.site Sample.contentPath
                             (str "./v1.md"))
      = Some (Release.permalink (Release.metadata r)).
Proof.
  apply (generated_document_resolves
           (Sample.host Sample.files Sample.production id)
           Sample.contentPath Sample.context DEFAULT_OPTIONS 0
           Sample.contentPath (str "./v1.md") (str "v1.md")).
  - vm_compute. reflexivity.
  - apply allParsed_forallb. vm_compute. reflexivity.
  - apply list_elem_of_In. vm_compute. left. reflexivity.
  - intros p. reflexivity.
  - vm_compute. reflexivity.
Defined.

Lemma data_in_sync_witness :
  ∃ name data,
    CreateData name data
    ∈ loadedActions (Sample.host Sample.files Sample.development id)
        Sample.build Sample.context DEFAULT_OPTIONS Sample.loaded
    ∧ Path.join Sample.P
        (dataDirOf (Sample.host Sample.files Sample.development id)
                   Sample.context) name
      = metadataPath (Sample.host Sample.files Sample.development id)
          Sample.build Sample.context
          (Path.join Sample.P Sample.contentPath (str "v1.md")).
Proof.
  apply (proj2 (data_in_sync
                  (Sample.host Sample.files Sample.development id)
                  Sample.build Sample.context DEFAULT_OPTIONS
                  initialState Sample.loaded loadContent_sample)).
  - vm_compute. reflexivity.
  - apply list_elem_of_In. vm_compute. left. reflexivity.
Defined.

Lemma contentLoaded_routes_witness :
  ∃ o, store Sample.loaded !! 3 = Some o
    ∧ highlightRoute DEFAULT_OPTIONS o
      ∈ loadedActions (Sample.host Sample.files Sample.development id)
          Sample.build Sample.context DEFAULT_OPTIONS Sample.loaded
    ∧ highlightRoute DEFAULT_OPTIONS o
      ∈ contentLoadedTs (Sample.host Sample.files Sample.development id)
          Sample.build Sample.context DEFAULT_OPTIONS
          (str "@theme/ReleaseHighlightsListPage") (store Sample.loaded)
          (Some (releases Sample.loaded, releaseHighlights Sample.loaded)).
Proof.
  assert (H : is_Some (store Sample.loaded !! 3))
    by (vm_compute; eauto).
  destruct H as [o Ho]. exists o. split; [exact Ho|].
  apply (proj1 (proj2 (contentLoaded_routes
           (Sample.host Sample.files Sample.development id)
           Sample.build Sample.context DEFAULT_OPTIONS
           (store Sample.loaded) (releases Sample.loaded)
           (releaseHighlights Sample.loaded)
           (str "@theme/ReleaseHighlightsListPage")
           (fun items => Permutation_sym (Permutation_rev items))))
         3 o); [|exact Ho].
  apply list_elem_of_In. vm_compute. left. reflexivity.
Defined.
